(** * job-runner: the client-side services of the dashboard

    A shallow embedding of
    [job_runner/apps/job_runner/static/job_runner/js/services.js]
    (the [dtformat] value, the [globalCache] and the [globalState] service)
    and of the route table of the application module.

    JavaScript values are modelled on the fragment the services handle:
    [null], [undefined] and strings for project ids and timestamps,
    integers for ids and duration components, object references as handles
    into an explicit heap.  Asynchronous resource calls are modelled by a
    queue of outstanding requests; the environment answers them one at a
    time, in any order.  moment.js, which [dtformat] calls, is an external
    library: its operations are parameters of the embedding. *)

From Stdlib Require Import ZArith Lia.
From stdpp Require Import base strings list gmap pretty.

(** ** JavaScript values *)

(** A project id or a timestamp as the services receive it: [null] (the
    initial value of [data.projectId]), [undefined] (an argument that was
    not passed) or a string (a route parameter, an ISO timestamp). *)
Inductive jsval :=
  | JNull
  | JUndefined
  | JStr (s : string).

#[global] Instance jsval_eq_dec : EqDecision jsval.
Proof. solve_decision. Defined.

(** ToBoolean: [null], [undefined] and the empty string are falsy. *)
Definition truthy (v : jsval) : bool :=
  match v with
  | JStr s => bool_decide (s ≠ "")
  | JNull | JUndefined => false
  end.

(** [a == b]: [null] and [undefined] equal each other and nothing else;
    two strings are compared by content. *)
Definition loose_eq (a b : jsval) : bool :=
  match a, b with
  | JStr s, JStr t => bool_decide (s = t)
  | JStr _, _ | _, JStr _ => false
  | _, _ => true
  end.

(** [a !== null] *)
Definition not_null (a : jsval) : bool :=
  match a with JNull => false | _ => true end.

(** ** moment.js *)

Module Moment.

(** The [_data] of a moment [Duration]. *)
Record Duration := {
  milliseconds : Z;
  seconds : Z;
  minutes : Z;
  hours : Z;
  days : Z;
  months : Z;
  years : Z
}.

(** moment.js is an external library: it is not among the sources, and
    the application does not say which version of it is loaded.  The two
    operations that decide what [dtformat] computes are therefore
    parameters of the embedding: [diff e s] is [end.diff(start)] for two
    moments at the instants [e] and [s] (milliseconds since the epoch),
    [duration ms] is [moment.duration(ms)]. *)
Class Lib := {
  diff : Z → Z → Z;
  duration : Z → Duration
}.

(** The [Duration] constructor of moment up to 2.5.1: a length in
    milliseconds is bubbled up from unit to unit with truncating division
    ([absRound]) and JavaScript's remainder, a month counting 30 days and
    a year 12 months.  Later versions convert days to months otherwise. *)
Definition bubble (ms : Z) : Duration :=
  let secs := Z.quot ms 1000 in
  let mins := Z.quot secs 60 in
  let hrs := Z.quot mins 60 in
  let dys := Z.quot hrs 24 in
  let mths := Z.quot dys 30 in
  {| milliseconds := Z.rem ms 1000;
     seconds := Z.rem secs 60;
     minutes := Z.rem mins 60;
     hours := Z.rem hrs 24;
     days := Z.rem dys 30;
     months := Z.rem mths 12;
     years := Z.quot mths 12 |}.

(** The time elapsed from the instant [s] to the instant [e]. *)
Definition elapsed (e s : Z) : Z := (e - s)%Z.

(** moment 2.1 to 2.5.1: [diff] is the time elapsed and a duration is
    bubbled.  This is the library meant wherever none is named. *)
#[global] Instance v2_1 : Lib := {| diff := elapsed; duration := bubble |}.

(** moment 1.7 and 2.0: [diff] takes from the time elapsed the change of
    the local UTC offset between the two instants, [zone t] being the
    offset ([getTimezoneOffset], in minutes) at the instant [t]; so it
    measures the wall clock, not the time elapsed, across a clock
    change. *)
Definition v1_7 (zone : Z → Z) : Lib :=
  {| diff := λ e s, (e - s - (zone e - zone s) * 60000)%Z;
     duration := bubble |}.

(** The whole seconds in a length of [ms] milliseconds. *)
Definition whole_seconds (ms : Z) : Z := Z.quot ms 1000.

End Moment.

(** ** dtformat *)

Section dtformat.

Context {lib : Moment.Lib}.

(** [moment(v)]: the instant, in milliseconds since the epoch, that
    moment.js reads from a timestamp; [format] renders an instant.  The
    functions are embedded on the timestamps moment reads an instant
    from: what moment makes of any other value (no moment at all, or an
    invalid date, depending on its version) is not modelled, and nothing
    below is a statement about such values. *)
Variable moment : jsval → Z.
Variable format : Z → string → string.

(** A function that falls off its end returns [undefined]: [None]. *)
Definition formatDuration (startDts endDts : jsval) : option string :=
  if not_null startDts && not_null endDts then
    let start := moment startDts in
    let end_ := moment endDts in
    let duration := Moment.duration (Moment.diff end_ start) in
    Some (pretty (Moment.days duration) +:+ "d, "
          +:+ pretty (Moment.hours duration) +:+ "h, "
          +:+ pretty (Moment.minutes duration) +:+ "min, "
          +:+ pretty (Moment.seconds duration) +:+ "sec ")
  else None.

Definition getDurationInSec (startDts endDts : jsval) : option Z :=
  if not_null startDts && not_null endDts then
    let start := moment startDts in
    let end_ := moment endDts in
    let duration := Moment.duration (Moment.diff end_ start) in
    let output := Moment.seconds duration in
    let output := (output + Moment.days duration * 24 * 60 * 60)%Z in
    let output := (output + Moment.hours duration * 60 * 60)%Z in
    let output := (output + Moment.minutes duration * 60)%Z in
    Some output
  else None.

Definition formatDateTime (dateTimeString : jsval) : option string :=
  if not_null dateTimeString then
    Some (format (moment dateTimeString) "YYYY-MM-DD HH:mm:ss")
  else None.

End dtformat.

(** ** The route table *)

Inductive controller := RunsCtrl | JobListCtrl.

#[global] Instance controller_eq_dec : EqDecision controller.
Proof. solve_decision. Defined.

Record route := {
  controller_of : controller;
  templateUrl : string
}.

#[global] Instance route_eq_dec : EqDecision route.
Proof. solve_decision. Defined.

(** [$routeProvider.when(path, route)] registers [route] under [path];
    the provider is returned, so calls chain. *)
Definition when (path : string) (r : route)
    (routes : list (string * route)) : list (string * route) :=
  routes ++ [(path, r)].

Definition routeProvider : list (string * route) :=
  when "/project/:project/jobs/:job/"
       {| controller_of := JobListCtrl;
          templateUrl := "/static/job_runner/templates/job_list.html" |}
    (when "/project/:project/jobs/"
          {| controller_of := JobListCtrl;
             templateUrl := "/static/job_runner/templates/job_list.html" |}
      (when "/project/:project/runs/"
            {| controller_of := RunsCtrl;
               templateUrl := "/static/job_runner/templates/runs.html" |}
         [])).

(** ** Remote resources and the heap *)

(** A record of one of the remote resource types (Project, Job,
    JobTemplate, Worker, Run).  The client reads its [id] only; the other
    fields, owned by the server, are kept as an opaque [body]. *)
Record item := Item {
  id : N;
  body : string
}.

#[global] Instance item_eq_dec : EqDecision item.
Proof. solve_decision. Defined.

(** A reference to a JavaScript array or resource object: an index into
    the heap.  Two holders of the same handle see each other's updates. *)
Abbreviation handle := nat.

(** The parameters of a resource call. *)
Inductive request :=
  | ProjectGet (id_ : jsval)
  | JobAll (project_id : jsval)
  | JobTemplateAll (project_id : jsval)
  | WorkerAll (project_id : jsval)
  | RunAll (state_ : string) (project_id : jsval)
  | RunQuery (job : N) (limit : N) (state_ : string).

#[global] Instance request_eq_dec : EqDecision request.
Proof. solve_decision. Defined.

(** A function handed in by a caller of the service, known by name only. *)
Abbreviation callback := string.

(** The function literals of [globalState] that are passed as success
    callbacks, each with the variables it closes over. *)
Inductive cont :=
  | KNone                               (* no callback was passed *)
  | KUser (success : callback)          (* [getAllJobs]: the caller's own *)
  | KCacheJobs (cb : callback)          (* [initialize], [function(jobs)] *)
  | KCacheTemplates (cb : callback)     (* [function(jobTemplates)] *)
  | KCacheWorkers (cb : callback)       (* [function(workers)] *)
  | KPushRuns                           (* [getRuns], per run state *)
  | KQueryCompleted                     (* [getRuns], [function(jobs)] *)
  | KPushCompleted.                     (* [getRuns], after [Run.query] *)

#[global] Instance cont_eq_dec : EqDecision cont.
Proof. solve_decision. Defined.

(** A value held by [globalCache]: a list (by reference) or a record. *)
Inductive cache_val :=
  | CRef (h : handle)
  | CItem (it : item).

#[global] Instance cache_val_eq_dec : EqDecision cache_val.
Proof. solve_decision. Defined.

(** What the service does to its collaborators, in order. *)
Inductive event :=
  | RemoveAll                           (* [globalCache.removeAll()] *)
  | Put (key : string) (v : cache_val)  (* [globalCache.put(key, v)] *)
  | Fetch (r : request)                 (* a remote query is issued *)
  | Invoke (cb : callback)              (* a caller's function is called *)
  | TypeError.                          (* an uncaught exception *)

#[global] Instance event_eq_dec : EqDecision event.
Proof. solve_decision. Defined.

(** An outstanding request: its parameters, the object the call returned
    (to be filled by the response) and the callbacks registered for it. *)
Record pending_req := {
  req : request;
  result : handle;
  on_success : cont;
  on_error : option cont
}.

#[global] Instance pending_req_eq_dec : EqDecision pending_req.
Proof. solve_decision. Defined.

(** ** globalState *)

(** The [data] object of the service. *)
Record data_t := {
  project : option handle;
  projectId : jsval;
  page : option string;
  jobs : option handle;
  jobTab : string;
  jobTemplates : option handle;
  jobFilter : gmap string string;
  runs : option handle;
  wsConnected : bool
}.

(** The service with what it shares with its collaborators: the cache,
    the heap of arrays and resource objects (an object being represented
    by the list of the records received into it), the requests in flight
    and the trace of effects so far. *)
Record state := {
  data : data_t;
  globalCache : gmap string cache_val;
  heap : list (list item);
  pending : list pending_req;
  trace : list event
}.

Definition set_project (v : option handle) (s : state) : state :=
  let d := data s in
  {| data := {| project := v; projectId := projectId d; page := page d;
                jobs := jobs d; jobTab := jobTab d;
                jobTemplates := jobTemplates d; jobFilter := jobFilter d;
                runs := runs d; wsConnected := wsConnected d |};
     globalCache := globalCache s; heap := heap s; pending := pending s;
     trace := trace s |}.

Definition set_projectId (v : jsval) (s : state) : state :=
  let d := data s in
  {| data := {| project := project d; projectId := v; page := page d;
                jobs := jobs d; jobTab := jobTab d;
                jobTemplates := jobTemplates d; jobFilter := jobFilter d;
                runs := runs d; wsConnected := wsConnected d |};
     globalCache := globalCache s; heap := heap s; pending := pending s;
     trace := trace s |}.

Definition set_jobs (v : option handle) (s : state) : state :=
  let d := data s in
  {| data := {| project := project d; projectId := projectId d;
                page := page d; jobs := v; jobTab := jobTab d;
                jobTemplates := jobTemplates d; jobFilter := jobFilter d;
                runs := runs d; wsConnected := wsConnected d |};
     globalCache := globalCache s; heap := heap s; pending := pending s;
     trace := trace s |}.

Definition set_jobTemplates (v : option handle) (s : state) : state :=
  let d := data s in
  {| data := {| project := project d; projectId := projectId d;
                page := page d; jobs := jobs d; jobTab := jobTab d;
                jobTemplates := v; jobFilter := jobFilter d;
                runs := runs d; wsConnected := wsConnected d |};
     globalCache := globalCache s; heap := heap s; pending := pending s;
     trace := trace s |}.

Definition set_runs (v : option handle) (s : state) : state :=
  let d := data s in
  {| data := {| project := project d; projectId := projectId d;
                page := page d; jobs := jobs d; jobTab := jobTab d;
                jobTemplates := jobTemplates d; jobFilter := jobFilter d;
                runs := v; wsConnected := wsConnected d |};
     globalCache := globalCache s; heap := heap s; pending := pending s;
     trace := trace s |}.

(** The service as the factory returns it, with an empty cache. *)
Definition init : state :=
  {| data := {| project := None; projectId := JNull; page := None;
                jobs := None; jobTab := "details"; jobTemplates := None;
                jobFilter := ∅; runs := None; wsConnected := false |};
     globalCache := ∅; heap := []; pending := []; trace := [] |}.

(** *** Collaborators *)

(** [$cacheFactory]: a key-value store. *)
Definition cache_put (key : string) (v : cache_val) (s : state) : state :=
  {| data := data s; globalCache := <[key := v]> (globalCache s);
     heap := heap s; pending := pending s;
     trace := trace s ++ [Put key v] |}.

Definition cache_removeAll (s : state) : state :=
  {| data := data s; globalCache := ∅; heap := heap s;
     pending := pending s; trace := trace s ++ [RemoveAll] |}.

(** A caller's function is called; what it does is the caller's. *)
Definition invoke (cb : callback) (s : state) : state :=
  {| data := data s; globalCache := globalCache s; heap := heap s;
     pending := pending s; trace := trace s ++ [Invoke cb] |}.

Definition uncaught (s : state) : state :=
  {| data := data s; globalCache := globalCache s; heap := heap s;
     pending := pending s; trace := trace s ++ [TypeError] |}.

(** [[]]: a new array. *)
Definition alloc (s : state) : handle * state :=
  (length (heap s),
   {| data := data s; globalCache := globalCache s;
      heap := heap s ++ [[]]; pending := pending s; trace := trace s |}).

(** Modelled from the spec: the resource modules ([Project.get],
    [Job.all], [JobTemplate.all], [Worker.all], [Run.all], [Run.query])
    are not among the sources.  Their calls are asynchronous and
    non-blocking: a call returns at once with a new, still empty result
    object and leaves the request outstanding; the callbacks run later,
    when the response has arrived. *)
Definition fetch (r : request) (success : cont) (error : option cont)
    (s : state) : handle * state :=
  let h := length (heap s) in
  (h,
   {| data := data s; globalCache := globalCache s;
      heap := heap s ++ [[]];
      pending := pending s ++ [{| req := r; result := h;
                                  on_success := success;
                                  on_error := error |}];
      trace := trace s ++ [Fetch r] |}).

(** *** Operations *)

Definition setProjectId (projectId_ : jsval) (s : state) : state :=
  if negb (truthy (projectId (data s)))
     || negb (loose_eq (projectId (data s)) projectId_) then
    let s := set_projectId projectId_ s in
    (* reset all data *)
    let s := cache_removeAll s in
    let s := set_project None s in
    let s := set_jobs None s in
    let s := set_jobTemplates None s in
    let s := set_runs None s in
    s
  else s.

Definition initialize (projectId_ : jsval) (cb : callback) (s : state)
    : state :=
  if negb (truthy (projectId (data s)))
     || negb (loose_eq (projectId (data s)) projectId_) then
    let s := set_projectId projectId_ s in
    (* reset all data *)
    let s := cache_removeAll s in
    let s := set_project None s in
    let s := set_jobs None s in
    let s := set_jobTemplates None s in
    let s := set_runs None s in
    (* cache all jobs *)
    (fetch (JobAll (projectId (data s))) (KCacheJobs cb) None s).2
  else invoke cb s.

Definition getProject (s : state) : handle * state :=
  match project (data s) with
  | Some h => (h, s)
  | None =>
      let '(h, s) := fetch (ProjectGet (projectId (data s))) KNone None s in
      let s := set_project (Some h) s in
      (h, s)
  end.

Definition getAllJobs (success : option callback) (s : state)
    : handle * state :=
  match jobs (data s) with
  | Some h => (h, s)
  | None =>
      let k := match success with Some f => KUser f | None => KNone end in
      let '(h, s) := fetch (JobAll (projectId (data s))) k None s in
      let s := set_jobs (Some h) s in
      (h, s)
  end.

Definition getAllJobTemplates (s : state) : handle * state :=
  match jobTemplates (data s) with
  | Some h => (h, s)
  | None =>
      let '(h, s) :=
        fetch (JobTemplateAll (projectId (data s))) KNone None s in
      let s := set_jobTemplates (Some h) s in
      (h, s)
  end.

Definition getRuns (s : state) : handle * state :=
  match runs (data s) with
  | Some h => (h, s)
  | None =>
      let '(h, s) := alloc s in
      let s := set_runs (Some h) s in
      let s :=
        (fetch (RunAll "scheduled" (projectId (data s))) KPushRuns None s).2 in
      let s :=
        (fetch (RunAll "in_queue" (projectId (data s))) KPushRuns None s).2 in
      let s :=
        (fetch (RunAll "started" (projectId (data s))) KPushRuns None s).2 in
      let s :=
        (fetch (JobAll (projectId (data s))) KQueryCompleted None s).2 in
      (h, s)
  end.

(** *** Callback bodies *)

(** [angular.forEach(xs, function(x) { globalCache.put(prefix + x.id, x) })] *)
Definition put_each (prefix : string) (xs : list item) (s : state) : state :=
  foldl (λ s x, cache_put (prefix +:+ pretty (id x)) (CItem x) s) s xs.

(** [self.data.runs.push(run)]; [None] when [data.runs] is null. *)
Definition push (run : item) (s : state) : option state :=
  match runs (data s) with
  | Some h =>
      Some {| data := data s; globalCache := globalCache s;
              heap := alter (λ l, l ++ [run]) h (heap s);
              pending := pending s; trace := trace s |}
  | None => None
  end.

(** [angular.forEach(xs, function(run) { self.data.runs.push(run) })]:
    an exception ends the loop. *)
Fixpoint push_each (xs : list item) (s : state) : state :=
  match xs with
  | [] => s
  | run :: xs =>
      match push run s with
      | Some s' => push_each xs s'
      | None => uncaught s
      end
  end.

(** [angular.forEach(jobs, function(job) { var runs = Run.query(...) })] *)
Definition query_each (xs : list item) (s : state) : state :=
  foldl (λ s job,
           (fetch (RunQuery (id job) 1 "completed") KPushCompleted None s).2)
        s xs.

(** The body of a callback, run when the response has been stored in the
    result object [h] of its request. *)
Definition run_cont (k : cont) (h : handle) (s : state) : state :=
  let xs := default [] (heap s !! h) in
  match k with
  | KNone => s
  | KUser success => invoke success s
  | KCacheJobs cb =>
      let s := cache_put "job.all" (CRef h) s in
      let s := put_each "job." xs s in
      (* cache all job-templates *)
      (fetch (JobTemplateAll (projectId (data s))) (KCacheTemplates cb)
             None s).2
  | KCacheTemplates cb =>
      let s := cache_put "jobTemplate.all" (CRef h) s in
      let s := put_each "jobTemplate." xs s in
      (* cache all workers *)
      (fetch (WorkerAll (projectId (data s))) (KCacheWorkers cb) None s).2
  | KCacheWorkers cb =>
      let s := cache_put "worker.all" (CRef h) s in
      let s := put_each "worker." xs s in
      invoke cb s
  | KPushRuns => push_each xs s
  | KQueryCompleted => query_each xs s
  | KPushCompleted => push_each xs s
  end.

(** *** The event loop *)

Definition take_pending (i : nat) (s : state) : state :=
  {| data := data s; globalCache := globalCache s; heap := heap s;
     pending := delete i (pending s); trace := trace s |}.

Definition store (h : handle) (resp : list item) (s : state) : state :=
  {| data := data s; globalCache := globalCache s;
     heap := <[h := resp]> (heap s);
     pending := pending s; trace := trace s |}.

(** Modelled from the spec: the event loop of the browser is not among
    the sources.  Nothing runs in parallel: the response to the [i]-th
    outstanding request arrives, the result object is filled and the
    success callback runs to its end. *)
Definition deliver (i : nat) (resp : list item) (s : state) : state :=
  match pending s !! i with
  | Some r =>
      run_cont (on_success r) (result r)
        (store (result r) resp (take_pending i s))
  | None => s
  end.

(** Modelled from the spec: the [i]-th outstanding request fails; the
    error callback runs, if one was registered, and the success callback
    never does. *)
Definition fail (i : nat) (s : state) : state :=
  match pending s !! i with
  | Some r =>
      match on_error r with
      | Some k => run_cont k (result r) (take_pending i s)
      | None => take_pending i s
      end
  | None => s
  end.

Inductive action :=
  | CallSetProjectId (p : jsval)
  | CallInitialize (p : jsval) (cb : callback)
  | CallGetProject
  | CallGetAllJobs (success : option callback)
  | CallGetAllJobTemplates
  | CallGetRuns
  | Respond (i : nat) (resp : list item)
  | Fail (i : nat).

Definition step (s : state) (a : action) : state :=
  match a with
  | CallSetProjectId p => setProjectId p s
  | CallInitialize p cb => initialize p cb s
  | CallGetProject => (getProject s).2
  | CallGetAllJobs success => (getAllJobs success s).2
  | CallGetAllJobTemplates => (getAllJobTemplates s).2
  | CallGetRuns => (getRuns s).2
  | Respond i resp => deliver i resp s
  | Fail i => fail i s
  end.

Definition exec (acts : list action) (s : state) : state :=
  foldl step s acts.

(** The states the service can be in. *)
Definition reachable (s : state) : Prop := ∃ acts, s = exec acts init.

(** A server that answers every request from a fixed table. *)
Definition serve (srv : request → list item) (i : nat) (s : state) : state :=
  match pending s !! i with
  | Some r => deliver i (srv (req r)) s
  | None => s
  end.

Definition run_schedule (srv : request → list item) (sched : list nat)
    (s : state) : state :=
  foldl (λ s i, serve srv i s) s sched.

(** The remote queries a step has issued: the [Fetch] events it has added
    to the trace. *)
Definition fetches (t : list event) : list request :=
  omap (λ e, match e with Fetch r => Some r | _ => None end) t.

Definition issued (a : action) (s : state) : list request :=
  fetches (drop (length (trace s)) (trace (step s a))).

(** ** Specifications *)

(** A getter memoizes its result in a field of [data]: called with the
    field null it issues a remote fetch and stores the new result object
    in the field; called with the field set it returns the stored object
    and leaves the service as it is; so a second call adds nothing to the
    first. *)
Definition memoizes (field : data_t → option handle)
    (getter : state → handle * state) (a : action) : Prop :=
  ∀ s : state,
    (field (data s) = None →
       field (data (getter s).2) = Some (getter s).1
       ∧ (getter s).1 = length (heap s)
       ∧ issued a s ≠ [])
    ∧ (∀ h, field (data s) = Some h → getter s = (h, s) ∧ issued a s = [])
    ∧ getter (getter s).2 = getter s.

(** The cache after [angular.forEach(xs, ...)] has put every record of
    [xs] under its per-id key. *)
Definition put_items (prefix : string) (xs : list item)
    (m : gmap string cache_val) : gmap string cache_val :=
  foldl (λ m x, <[prefix +:+ pretty (id x) := CItem x]> m) m xs.

(** The [put] events of one [angular.forEach] over [xs]. *)
Definition puts (prefix : string) (xs : list item) : list event :=
  (λ x, Put (prefix +:+ pretty (id x)) (CItem x)) <$> xs.

(** The callbacks of [getRuns]. *)
Definition is_run_query (k : cont) : bool :=
  match k with
  | KPushRuns | KQueryCompleted | KPushCompleted => true
  | _ => false
  end.

(** The last completed run of a job, as the server reports it. *)
Definition completed_of (srv : request → list item) (job : item)
    : list item :=
  srv (RunQuery (id job) 1 "completed").

(** The merge of the four queries of [getRuns] for project [pid]: the
    scheduled, queued and started runs, then the last completed run of
    every job of the project. *)
Definition merged_runs (srv : request → list item) (pid : jsval)
    : list item :=
  srv (RunAll "scheduled" pid) ++ srv (RunAll "in_queue" pid)
  ++ srv (RunAll "started" pid)
  ++ (srv (JobAll pid) ≫= completed_of srv).

(** The runs an outstanding request will still add to the run list. *)
Definition owed (srv : request → list item) (r : pending_req) : list item :=
  match on_success r with
  | KPushRuns | KPushCompleted => srv (req r)
  | KQueryCompleted => srv (req r) ≫= completed_of srv
  | _ => []
  end.

(** The requests that [query_each] leaves outstanding, the first with
    result object [h0]. *)
Fixpoint completed_queries (h0 : handle) (xs : list item)
    : list pending_req :=
  match xs with
  | [] => []
  | job :: xs =>
      {| req := RunQuery (id job) 1 "completed"; result := h0;
         on_success := KPushCompleted; on_error := None |}
      :: completed_queries (S h0) xs
  end.

(** Every outstanding request has its result object in the heap and no
    error callback. *)
Definition well_formed (s : state) : Prop :=
  Forall (λ r, result r < length (heap s) ∧ on_error r = None) (pending s).

(** [data.runs] is the list [h], which is no result object of an
    outstanding request. *)
Definition runs_wf (h : handle) (s : state) : Prop :=
  runs (data s) = Some h
  ∧ h < length (heap s)
  ∧ Forall (λ r, result r < length (heap s) ∧ result r ≠ h) (pending s).

(** While the queries of [getRuns] are answered: the run list [h] and
    the runs still owed to it make up [target]. *)
Definition runs_inv (srv : request → list item) (h : handle)
    (target : list item) (s : state) : Prop :=
  runs_wf h s
  ∧ ∃ l, heap s !! h = Some l ∧ l ++ (pending s ≫= owed srv) ≡ₚ target.

(** The callbacks that push what they receive on the run list. *)
Definition is_push (k : cont) : bool :=
  match k with
  | KPushRuns | KPushCompleted => true
  | _ => false
  end.

(** The runs that the answer to the [i]-th outstanding request brings. *)
Definition arriving (srv : request → list item) (i : nat) (s : state)
    : list item :=
  match pending s !! i with
  | Some r => if is_push (on_success r) then srv (req r) else []
  | None => []
  end.

(** A move of a session in which the server answers from a table: the
    answer to the [i]-th outstanding request arrives, or the client makes
    a call of the service. *)
Inductive move :=
  | Answer (i : nat)
  | Call (a : action).

Definition play (srv : request → list item) (s : state) (m : move)
    : state :=
  match m with
  | Answer i => serve srv i s
  | Call a => step s a
  end.

Definition session (srv : request → list item) (ms : list move)
    (s : state) : state :=
  foldl (play srv) s ms.

(** The moves that leave the project [pid] in place: the answers of the
    server, the calls of the four getters, and [setProjectId] and
    [initialize] for [pid] itself when it is truthy, the guard of both
    failing then. *)
Definition keeps_project (pid : jsval) (m : move) : bool :=
  match m with
  | Answer _ => true
  | Call (CallSetProjectId p) | Call (CallInitialize p _) =>
      truthy pid && loose_eq pid p
  | Call (Respond _ _) | Call (Fail _) => false
  | Call _ => true
  end.

(** The runs that a move brings. *)
Definition brings (srv : request → list item) (m : move) (s : state)
    : list item :=
  match m with
  | Answer i => arriving srv i s
  | Call _ => []
  end.

(** The runs that arrive in the course of a session, in order of
    arrival. *)
Fixpoint received (srv : request → list item) (ms : list move) (s : state)
    : list item :=
  match ms with
  | [] => []
  | m :: ms => brings srv m s ++ received srv ms (play srv s m)
  end.

(** A sample server: project 7 has one scheduled run, one started run
    and one job, whose last completed run is run 3; project 1 has one
    scheduled run. *)
Definition demo_server (r : request) : list item :=
  match r with
  | RunAll "scheduled" (JStr "1") => [Item 9 "weekly"]
  | RunAll "scheduled" (JStr "7") => [Item 1 "nightly"]
  | RunAll "started" (JStr "7") => [Item 2 "hourly"]
  | JobAll (JStr "7") => [Item 10 "backup"]
  | RunQuery 10 1 "completed" => [Item 3 "backup"]
  | _ => []
  end.

(** The calls a client makes, as opposed to the answers of the server. *)
Definition is_call (a : action) : bool :=
  match a with
  | Respond _ _ | Fail _ => false
  | _ => true
  end.

(** [c] occurs in [s]. *)
Fixpoint occurs (c : Ascii.ascii) (s : string) : bool :=
  match s with
  | EmptyString => false
  | String a s => Ascii.eqb c a || occurs c s
  end.

(** The characters of a decimal numeral: the digits and the sign. *)
Definition numeral_char (c : Ascii.ascii) : bool := occurs c "0123456789-".

Fixpoint numeral (s : string) : bool :=
  match s with
  | EmptyString => true
  | String c s => numeral_char c && numeral s
  end.

(** The text of [formatDuration] for a number of seconds: the seconds
    split in days, hours, minutes and seconds by truncating division. *)
Definition duration_text (n : Z) : string :=
  pretty (Z.quot n 86400) +:+ "d, "
  +:+ pretty (Z.rem (Z.quot n 3600) 24) +:+ "h, "
  +:+ pretty (Z.rem (Z.quot n 60) 60) +:+ "min, "
  +:+ pretty (Z.rem n 60) +:+ "sec ".

(** The callbacks of [initialize], which put their response in the
    cache. *)
Definition is_cache_cont (k : cont) : bool :=
  match k with
  | KCacheJobs _ | KCacheTemplates _ | KCacheWorkers _ => true
  | _ => false
  end.

(** The fields of [data] that no operation of the service assigns. *)
Definition view_fields (d : data_t)
    : option string * string * gmap string string * bool :=
  (page d, jobTab d, jobFilter d, wsConnected d).

(** A well-formed entry of the cache, the heap having [n] objects: a
    list under one of the three ['.all'] keys, or a record under the
    per-id key of its own id. *)
Definition cache_entry_ok (n : nat) (key : string) (v : cache_val) : Prop :=
  match v with
  | CRef h =>
      h < n
      ∧ (key = "job.all" ∨ key = "jobTemplate.all" ∨ key = "worker.all")
  | CItem x =>
      key = "job." +:+ pretty (id x)
      ∨ key = "jobTemplate." +:+ pretty (id x)
      ∨ key = "worker." +:+ pretty (id x)
  end.

Definition cache_ok (s : state) : Prop :=
  map_Forall (cache_entry_ok (length (heap s))) (globalCache s).

(** The remote queries an outstanding request will still make its
    callback issue. *)
Definition queries_owed (srv : request → list item) (r : pending_req)
    : list request :=
  match on_success r with
  | KQueryCompleted => (λ job, RunQuery (id job) 1 "completed") <$> srv (req r)
  | _ => []
  end.

(** Only queries of [getRuns] are outstanding, each with its result
    object in the heap. *)
Definition run_queries_only (s : state) : Prop :=
  Forall (λ r, is_run_query (on_success r) = true
               ∧ result r < length (heap s)) (pending s).

(** The callbacks of callers that have been called: the [Invoke] events
    of a trace. *)
Definition invoked (t : list event) : list callback :=
  omap (λ e, match e with Invoke f => Some f | _ => None end) t.

(** The caller's callback that a continuation will call, at the end of
    the chain it belongs to. *)
Definition cont_callback (k : cont) : list callback :=
  match k with
  | KUser f | KCacheJobs f | KCacheTemplates f | KCacheWorkers f => [f]
  | _ => []
  end.

(** The callbacks that outstanding requests will still lead to. *)
Definition awaited (s : state) : list callback :=
  pending s ≫= (λ r, cont_callback (on_success r)).

(** The callback a call hands over to the service: that of [initialize],
    and that of a [getAllJobs] which fetches. *)
Definition registers (a : action) (s : state) : list callback :=
  match a with
  | CallInitialize _ cb => [cb]
  | CallGetAllJobs (Some f) =>
      match jobs (data s) with None => [f] | Some _ => [] end
  | _ => []
  end.

(** The callback that is lost with a failing request. *)
Definition drops (a : action) (s : state) : list callback :=
  match a with
  | Fail i =>
      match pending s !! i with
      | Some r => cont_callback (on_success r)
      | None => []
      end
  | _ => []
  end.

(** What [f] gives at every step of a run of the service. *)
Fixpoint along (f : action → state → list callback) (acts : list action)
    (s : state) : list callback :=
  match acts with
  | [] => []
  | a :: acts => f a s ++ along f acts (step s a)
  end.

(** * Properties *)

(** ** JavaScript values and moment durations, on examples *)

Example truthy_examples :
  truthy JNull = false ∧ truthy JUndefined = false
  ∧ truthy (JStr "") = false ∧ truthy (JStr "0") = true.
Proof. by split_and!. Qed.

Example loose_eq_examples :
  loose_eq JNull JUndefined = true ∧ loose_eq JNull (JStr "") = false
  ∧ loose_eq (JStr "7") (JStr "7") = true
  ∧ loose_eq (JStr "7") (JStr "8") = false.
Proof. by split_and!. Qed.

(** 1 day, 2 hours, 3 minutes, 4 seconds and 5 milliseconds. *)
Example duration_93784005 :
  Moment.bubble 93784005 =
    {| Moment.milliseconds := 5; Moment.seconds := 4; Moment.minutes := 3;
       Moment.hours := 2; Moment.days := 1; Moment.months := 0;
       Moment.years := 0 |}.
Proof. reflexivity. Qed.

(** 400 days are 1 year, 1 month and 10 days. *)
Example duration_400_days :
  Moment.bubble (400 * 86400000) =
    {| Moment.milliseconds := 0; Moment.seconds := 0; Moment.minutes := 0;
       Moment.hours := 0; Moment.days := 10; Moment.months := 1;
       Moment.years := 1 |}.
Proof. reflexivity. Qed.

(** A negative length gives negative components. *)
Example duration_negative :
  Moment.bubble (-90061000) =
    {| Moment.milliseconds := 0; Moment.seconds := -1; Moment.minutes := -1;
       Moment.hours := -1; Moment.days := -1; Moment.months := 0;
       Moment.years := 0 |}.
Proof. reflexivity. Qed.

Example formatDuration_example :
  formatDuration (λ v, match v with JStr "end" => 93784005%Z | _ => 0%Z end)
                 (JStr "start") (JStr "end")
  = Some "1d, 2h, 3min, 4sec ".
Proof. vm_compute. reflexivity. Qed.

Example getDurationInSec_example :
  getDurationInSec (λ v, match v with JStr "end" => 93784005%Z | _ => 0%Z end)
                   (JStr "start") (JStr "end")
  = Some 93784%Z.
Proof. reflexivity. Qed.

(** ** dtformat *)

Lemma not_null_true (v : jsval) : v ≠ JNull → not_null v = true.
Proof. by destruct v. Qed.

(** The components of a bubbled duration add up to its whole seconds, a
    month counting for 30 days. *)
Lemma duration_whole_seconds (ms : Z) :
  let d := Moment.bubble ms in
  Moment.whole_seconds ms =
    (Moment.seconds d + 60 * Moment.minutes d + 3600 * Moment.hours d
     + 86400 * (Moment.days d
                + 30 * (Moment.months d + 12 * Moment.years d)))%Z.
Proof.
  unfold Moment.bubble, Moment.whole_seconds; simpl.
  Z.quot_rem_to_equations. lia.
Qed.

(** All components of a bubbled duration have the sign of its length. *)
Lemma duration_sign (ms : Z) :
  let d := Moment.bubble ms in
  let out := (Moment.seconds d + 60 * Moment.minutes d
              + 3600 * Moment.hours d + 86400 * Moment.days d)%Z in
  let mths := (Moment.months d + 12 * Moment.years d)%Z in
  (0 ≤ out ∧ 0 ≤ mths
   ∧ (mths = 0 → Moment.months d = 0 ∧ Moment.years d = 0))%Z
  ∨ (out ≤ 0 ∧ mths ≤ 0
     ∧ (mths = 0 → Moment.months d = 0 ∧ Moment.years d = 0))%Z.
Proof.
  unfold Moment.bubble; simpl.
  Z.quot_rem_to_equations. lia.
Qed.

(** C9: every [dtformat] function returns [undefined] on a [null]
    argument: [formatDuration] and [getDurationInSec] as soon as either
    timestamp is [null], [formatDateTime] when its string is [null]; the
    functions are total, so nothing is raised. *)
Theorem dtformat_null_is_undefined :
  ∀ (moment : jsval → Z) (format : Z → string → string) (v : jsval),
    formatDuration moment JNull v = None
    ∧ formatDuration moment v JNull = None
    ∧ getDurationInSec moment JNull v = None
    ∧ getDurationInSec moment v JNull = None
    ∧ formatDateTime moment format JNull = None.
Proof.
  intros moment format v. unfold formatDuration, getDurationInSec.
  repeat split; try reflexivity; by destruct v.
Qed.




(** ** The route table *)

(** C7: the route configuration registers exactly three URL patterns,
    on two controllers and two templates: the runs pattern on [RunsCtrl]
    with the runs template, the two jobs patterns on [JobListCtrl] with the
    job-list template. *)
Theorem routes_three_patterns :
  routeProvider =
    [("/project/:project/runs/",
      {| controller_of := RunsCtrl;
         templateUrl := "/static/job_runner/templates/runs.html" |});
     ("/project/:project/jobs/",
      {| controller_of := JobListCtrl;
         templateUrl := "/static/job_runner/templates/job_list.html" |});
     ("/project/:project/jobs/:job/",
      {| controller_of := JobListCtrl;
         templateUrl := "/static/job_runner/templates/job_list.html" |})]
  ∧ length routeProvider = 3
  ∧ NoDup routeProvider.*1
  ∧ remove_dups (controller_of <$> routeProvider.*2) = [RunsCtrl; JobListCtrl]
  ∧ remove_dups (templateUrl <$> routeProvider.*2) =
      ["/static/job_runner/templates/runs.html";
       "/static/job_runner/templates/job_list.html"].
Proof.
  split; [reflexivity|]. split; [reflexivity|].
  split; [|split; vm_compute; reflexivity].
  apply (bool_decide_unpack _). vm_compute. exact I.
Qed.

(** ** globalState: changing the project *)

(** The guard of [setProjectId] and [initialize] holds when the stored id
    is null or is another id than the new one. *)
Lemma guard_on_change (stored p : jsval) :
  stored = JNull ∨ stored ≠ p →
  negb (truthy stored) || negb (loose_eq stored p) = true.
Proof.
  intros [-> | Hne]; [reflexivity|].
  destruct stored as [| |a]; [reflexivity | reflexivity |].
  destruct p as [| |b]; simpl; [apply orb_true_r | apply orb_true_r |].
  rewrite (bool_decide_eq_false_2 (a = b)) by congruence.
  apply orb_true_r.
Qed.

(** The guard fails when the stored id is truthy and is the new one. *)
Lemma guard_on_same (stored : jsval) :
  truthy stored = true →
  negb (truthy stored) || negb (loose_eq stored stored) = false.
Proof.
  intros Ht. rewrite Ht. destruct stored as [| |a]; try discriminate.
  simpl. by rewrite bool_decide_eq_true_2.
Qed.

(** C1: when the stored project id is null or differs from [p], both
    [setProjectId p] and [initialize p cb] empty [globalCache], reset
    [data.project], [data.jobs], [data.jobTemplates] and [data.runs] to
    null and set [data.projectId] to [p]. *)
Theorem project_change_resets (p : jsval) (cb : callback) (s s' : state) :
  projectId (data s) = JNull ∨ projectId (data s) ≠ p →
  s' = setProjectId p s ∨ s' = initialize p cb s →
  globalCache s' = ∅
  ∧ (∀ key, globalCache s' !! key = None)
  ∧ project (data s') = None
  ∧ jobs (data s') = None
  ∧ jobTemplates (data s') = None
  ∧ runs (data s') = None
  ∧ projectId (data s') = p
  ∧ RemoveAll ∈ drop (length (trace s)) (trace s').
Proof.
  intros Hch Hs'. apply guard_on_change in Hch.
  assert (∀ t : list event, RemoveAll ∈ drop (length (trace s))
            (trace s ++ RemoveAll :: t)) as Hin.
  { intros t. rewrite drop_app_length. apply list_elem_of_here. }
  destruct Hs' as [-> | ->]; unfold setProjectId, initialize; rewrite Hch;
    simpl.
  - repeat split; try reflexivity. apply (Hin []).
  - repeat split; try reflexivity. rewrite <- app_assoc. apply Hin.
Qed.

Lemma project_change_resets_witness :
  let s := (getProject (setProjectId (JStr "1") init)).2 in
  project (data s) = Some 0
  ∧ project (data (setProjectId (JStr "2") s)) = None
  ∧ projectId (data (setProjectId (JStr "2") s)) = JStr "2".
Proof.
  intros s.
  destruct (project_change_resets (JStr "2") "render" s
              (setProjectId (JStr "2") s)) as (_ & _ & Hp & _ & _ & _ & Hid & _).
  - right. discriminate.
  - by left.
  - split; [reflexivity | split; [exact Hp | exact Hid]].
Defined.

(** C6, amended: when the stored project id is truthy (not null, not
    undefined, not the empty string) and equals [p], [setProjectId p]
    leaves the service as it is, and [initialize p cb] calls [cb] at once
    and does nothing else: the data, the cache, the heap and the
    outstanding requests are unchanged and no remote query is issued. *)
Theorem same_project_is_noop (p : jsval) (cb : callback) (s : state) :
  truthy (projectId (data s)) = true →
  projectId (data s) = p →
  setProjectId p s = s
  ∧ data (initialize p cb s) = data s
  ∧ globalCache (initialize p cb s) = globalCache s
  ∧ heap (initialize p cb s) = heap s
  ∧ pending (initialize p cb s) = pending s
  ∧ trace (initialize p cb s) = trace s ++ [Invoke cb]
  ∧ issued (CallSetProjectId p) s = []
  ∧ issued (CallInitialize p cb) s = [].
Proof.
  intros Ht <-. pose proof (guard_on_same _ Ht) as Hg.
  unfold issued, step, setProjectId, initialize. rewrite Hg. simpl.
  rewrite drop_app_length, drop_ge by lia. by repeat split.
Qed.

Lemma same_project_is_noop_witness :
  let s := exec [CallInitialize (JStr "7") "render";
                 Respond 0 [Item 1 "job"]] init in
  setProjectId (JStr "7") s = s
  ∧ trace (initialize (JStr "7") "again" s) = trace s ++ [Invoke "again"].
Proof.
  intros s.
  destruct (same_project_is_noop (JStr "7") "again" s)
    as (H1 & _ & _ & _ & _ & H2 & _); [reflexivity | reflexivity |].
  split; [exact H1 | exact H2].
Defined.

(** C6 as stated fails on the empty string, a non-null id that is falsy:
    with the same id stored, [setProjectId] still clears the cache and
    [initialize] still fetches, calling nothing. *)
Lemma same_empty_project_resets :
  let s := exec [CallInitialize (JStr "") "render";
                 Respond 0 [Item 1 "job"]] init in
  projectId (data s) ≠ JNull
  ∧ projectId (data s) = JStr ""
  ∧ globalCache s !! "job.all" = Some (CRef 0)
  ∧ globalCache (setProjectId (JStr "") s) !! "job.all" = None
  ∧ setProjectId (JStr "") s ≠ s
  ∧ issued (CallInitialize (JStr "") "again") s = [JobAll (JStr "")]
  ∧ Invoke "again" ∉ trace (initialize (JStr "") "again" s).
Proof.
  intros s.
  assert (globalCache s !! "job.all" = Some (CRef 0)) as Hc
    by (vm_compute; reflexivity).
  assert (globalCache (setProjectId (JStr "") s) !! "job.all" = None) as Hn
    by (vm_compute; reflexivity).
  split; [discriminate|]. split; [reflexivity|].
  split; [exact Hc|]. split; [exact Hn|].
  split; [intros Heq; rewrite Heq, Hc in Hn; discriminate|].
  split; [vm_compute; reflexivity|].
  apply (bool_decide_unpack _). vm_compute. exact I.
Qed.

(** ** globalState: the memoizing getters *)

Lemma fetches_app (t u : list event) :
  fetches (t ++ u) = fetches t ++ fetches u.
Proof. unfold fetches. apply omap_app. Qed.

(** C4: [getProject], [getAllJobs], [getAllJobTemplates] and [getRuns]
    each memoize their result in their field of [data]: with the field
    null the call issues a remote fetch and stores the result object in
    the field; with the field set it returns the stored object, changes
    nothing and fetches nothing; calling a getter twice is calling it
    once. *)
Theorem getters_memoize :
  memoizes project getProject CallGetProject
  ∧ (∀ success, memoizes jobs (getAllJobs success) (CallGetAllJobs success))
  ∧ memoizes jobTemplates getAllJobTemplates CallGetAllJobTemplates
  ∧ memoizes runs getRuns CallGetRuns.
Proof.
  split; [|split; [intros success|split]]; intros s; (split; [|split]).
  all: unfold issued, step, getProject, getAllJobs, getAllJobTemplates,
         getRuns.
  all: try (intros Hf; rewrite Hf; simpl;
            rewrite <- ?app_assoc, drop_app_length;
            split; [reflexivity | split; [reflexivity | discriminate]]).
  all: try (intros h Hf; rewrite Hf; simpl; rewrite drop_ge by lia;
            split; reflexivity).
  - destruct (project (data s)) eqn:Hf; simpl; [by rewrite Hf | reflexivity].
  - destruct (jobs (data s)) eqn:Hf; simpl; [by rewrite Hf | reflexivity].
  - destruct (jobTemplates (data s)) eqn:Hf; simpl;
      [by rewrite Hf | reflexivity].
  - destruct (runs (data s)) eqn:Hf; simpl; [by rewrite Hf | reflexivity].
Qed.

(** ** globalState: the cache-population chain of [initialize] *)

(** A decimal numeral is never the word ["all"]. *)
Lemma pretty_N_go_ne_all (x : N) (s : string) :
  s ≠ "all" → pretty_N_go x s ≠ "all".
Proof.
  revert s. induction (N.lt_wf_0 x) as [x _ IH]; intros s Hs.
  assert (x = 0 ∨ 0 < x)%N as [-> | Hx] by lia.
  - by rewrite pretty_N_go_0.
  - rewrite pretty_N_go_step by done. apply IH.
    + by apply N.div_lt.
    + unfold pretty_N_char. by repeat case_match.
Qed.

Lemma pretty_N_ne_all (n : N) : pretty n ≠ "all".
Proof.
  unfold pretty, pretty_N. case_decide; [discriminate|].
  by apply pretty_N_go_ne_all.
Qed.

(** One [angular.forEach] of cache puts, as a whole. *)
Lemma put_each_eq (prefix : string) (xs : list item) (s : state) :
  put_each prefix xs s =
    {| data := data s;
       globalCache := put_items prefix xs (globalCache s);
       heap := heap s; pending := pending s;
       trace := trace s ++ puts prefix xs |}.
Proof.
  unfold put_each, put_items, puts. revert s.
  induction xs as [|x xs IH]; intros s; simpl.
  - destruct s; simpl. by rewrite app_nil_r.
  - rewrite IH. simpl. by rewrite <- app_assoc.
Qed.

Lemma put_items_lookup_other (prefix key : string) (xs : list item)
    (m : gmap string cache_val) :
  (∀ x, x ∈ xs → prefix +:+ pretty (id x) ≠ key) →
  put_items prefix xs m !! key = m !! key.
Proof.
  unfold put_items. revert m.
  induction xs as [|x xs IH]; intros m Hne; simpl; [done|].
  rewrite IH by (intros y Hy; apply Hne; by right).
  apply lookup_insert_ne, Hne. by left.
Qed.

Lemma put_items_lookup_in (prefix : string) (xs : list item) (x : item)
    (m : gmap string cache_val) :
  NoDup (id <$> xs) → x ∈ xs →
  put_items prefix xs m !! (prefix +:+ pretty (id x)) = Some (CItem x).
Proof.
  unfold put_items. revert m.
  induction xs as [|y xs IH]; intros m Hnd Hin; simpl.
  - by apply elem_of_nil in Hin.
  - rewrite fmap_cons in Hnd. apply NoDup_cons in Hnd as [Hy Hnd].
    apply elem_of_cons in Hin as [-> | Hin]; [|by apply IH].
    fold (put_items prefix xs
            (<[prefix +:+ pretty (id y) := CItem y]> m)).
    rewrite put_items_lookup_other; [apply lookup_insert_eq|].
    intros z Hz Heq. apply Hy.
    apply (inj (String.app prefix)), (inj pretty) in Heq.
    rewrite <- Heq. apply list_elem_of_fmap. by exists z.
Qed.

(** The response to the newest request arrives. *)
Lemma deliver_newest (s : state) (pd : list pending_req)
    (hp : list (list item)) (old resp : list item) (r : pending_req) :
  pending s = pd ++ [r] → heap s = hp ++ [old] → result r = length hp →
  deliver (length pd) resp s =
    run_cont (on_success r) (length hp)
      {| data := data s; globalCache := globalCache s;
         heap := hp ++ [resp]; pending := pd; trace := trace s |}.
Proof.
  intros Hpd Hhp Hr. unfold deliver, store, take_pending.
  rewrite Hpd, list_lookup_middle by done. simpl.
  rewrite delete_middle, app_nil_r, Hr, Hhp.
  rewrite <- (Nat.add_0_r (length hp)) at 2.
  by rewrite insert_app_r.
Qed.

Lemma lookup_newest (hp : list (list item)) (xs : list item) :
  default [] ((hp ++ [xs]) !! length hp) = xs.
Proof. by rewrite list_lookup_middle. Qed.

(** The three callbacks of the chain, run on a response that arrives
    in any state of the service. *)
Lemma deliver_jobs (cb : callback) (i : nat) (js : list item) (s : state)
    (r : pending_req) :
  pending s !! i = Some r → on_success r = KCacheJobs cb →
  result r < length (heap s) →
  deliver i js s =
    {| data := data s;
       globalCache :=
         put_items "job." js (<["job.all" := CRef (result r)]> (globalCache s));
       heap := <[result r := js]> (heap s) ++ [[]];
       pending := delete i (pending s)
                  ++ [{| req := JobTemplateAll (projectId (data s));
                         result := length (heap s);
                         on_success := KCacheTemplates cb;
                         on_error := None |}];
       trace := trace s ++ Put "job.all" (CRef (result r)) :: puts "job." js
                  ++ [Fetch (JobTemplateAll (projectId (data s)))] |}.
Proof.
  intros Hi Hk Hlt. unfold deliver. rewrite Hi, Hk.
  cbn [run_cont heap store take_pending].
  rewrite list_lookup_insert_eq by done. cbn [default].
  rewrite put_each_eq. unfold fetch. simpl.
  by rewrite length_insert, <- !app_assoc.
Qed.

Lemma deliver_templates (cb : callback) (i : nat) (ts : list item)
    (s : state) (r : pending_req) :
  pending s !! i = Some r → on_success r = KCacheTemplates cb →
  result r < length (heap s) →
  deliver i ts s =
    {| data := data s;
       globalCache :=
         put_items "jobTemplate." ts
           (<["jobTemplate.all" := CRef (result r)]> (globalCache s));
       heap := <[result r := ts]> (heap s) ++ [[]];
       pending := delete i (pending s)
                  ++ [{| req := WorkerAll (projectId (data s));
                         result := length (heap s);
                         on_success := KCacheWorkers cb;
                         on_error := None |}];
       trace := trace s ++ Put "jobTemplate.all" (CRef (result r))
                  :: puts "jobTemplate." ts
                  ++ [Fetch (WorkerAll (projectId (data s)))] |}.
Proof.
  intros Hi Hk Hlt. unfold deliver. rewrite Hi, Hk.
  cbn [run_cont heap store take_pending].
  rewrite list_lookup_insert_eq by done. cbn [default].
  rewrite put_each_eq. unfold fetch. simpl.
  by rewrite length_insert, <- !app_assoc.
Qed.

Lemma deliver_workers (cb : callback) (i : nat) (ws : list item)
    (s : state) (r : pending_req) :
  pending s !! i = Some r → on_success r = KCacheWorkers cb →
  result r < length (heap s) →
  deliver i ws s =
    {| data := data s;
       globalCache :=
         put_items "worker." ws
           (<["worker.all" := CRef (result r)]> (globalCache s));
       heap := <[result r := ws]> (heap s);
       pending := delete i (pending s);
       trace := trace s ++ Put "worker.all" (CRef (result r))
                  :: puts "worker." ws ++ [Invoke cb] |}.
Proof.
  intros Hi Hk Hlt. unfold deliver. rewrite Hi, Hk.
  cbn [run_cont heap store take_pending].
  rewrite list_lookup_insert_eq by done. cbn [default].
  rewrite put_each_eq. unfold invoke. simpl.
  by rewrite <- !app_assoc.
Qed.

Ltac key_ne :=
  intros; cbn [String.append];
  let H := fresh "Hkey" in
  intros H;
  first [ discriminate H
        | injection H as H; by apply pretty_N_ne_all in H ].

(** C3: when [p] differs from the stored project id, [initialize p cb]
    populates the cache in the order jobs, job templates, workers: each
    fetch is issued only after the previous response has been put in the
    cache, under its ['.all'] key and under the per-id key of every
    record, and [cb] is called last, once the three lists are cached.
    The first part follows the three responses from any state of the
    service; the last part gives each stage on its own, for a response
    that arrives in whatever state the service is in by then. *)
Theorem initialize_populates_in_sequence (p : jsval) (cb : callback)
    (s : state) (js ts ws : list item) :
  projectId (data s) = JNull ∨ projectId (data s) ≠ p →
  let n := length (pending s) in
  let h := length (heap s) in
  let s0 := initialize p cb s in
  let s1 := deliver n js s0 in
  let s2 := deliver n ts s1 in
  let s3 := deliver n ws s2 in
  (* the order of the effects *)
  trace s0 = trace s ++ [RemoveAll; Fetch (JobAll p)]
  ∧ trace s1 = trace s0 ++ Put "job.all" (CRef h) :: puts "job." js
                 ++ [Fetch (JobTemplateAll p)]
  ∧ trace s2 = trace s1 ++ Put "jobTemplate.all" (CRef (S h))
                 :: puts "jobTemplate." ts ++ [Fetch (WorkerAll p)]
  ∧ trace s3 = trace s2 ++ Put "worker.all" (CRef (S (S h)))
                 :: puts "worker." ws ++ [Invoke cb]
  (* one request of the chain is outstanding at a time *)
  ∧ pending s0 = pending s ++ [{| req := JobAll p; result := h;
                                  on_success := KCacheJobs cb;
                                  on_error := None |}]
  ∧ pending s1 = pending s ++ [{| req := JobTemplateAll p; result := S h;
                                  on_success := KCacheTemplates cb;
                                  on_error := None |}]
  ∧ pending s2 = pending s ++ [{| req := WorkerAll p; result := S (S h);
                                  on_success := KCacheWorkers cb;
                                  on_error := None |}]
  ∧ pending s3 = pending s
  (* the cache when the callback is called *)
  ∧ globalCache s3 !! "job.all" = Some (CRef h)
  ∧ heap s3 !! h = Some js
  ∧ globalCache s3 !! "jobTemplate.all" = Some (CRef (S h))
  ∧ heap s3 !! S h = Some ts
  ∧ globalCache s3 !! "worker.all" = Some (CRef (S (S h)))
  ∧ heap s3 !! S (S h) = Some ws
  ∧ (NoDup (id <$> js) → ∀ x, x ∈ js →
       globalCache s3 !! ("job." +:+ pretty (id x)) = Some (CItem x))
  ∧ (NoDup (id <$> ts) → ∀ x, x ∈ ts →
       globalCache s3 !! ("jobTemplate." +:+ pretty (id x)) = Some (CItem x))
  ∧ (NoDup (id <$> ws) → ∀ x, x ∈ ws →
       globalCache s3 !! ("worker." +:+ pretty (id x)) = Some (CItem x))
  (* each stage, whenever its response arrives *)
  ∧ (∀ s' i r xs,
       pending s' !! i = Some r → result r < length (heap s') →
       (on_success r = KCacheJobs cb →
          trace (deliver i xs s') =
            trace s' ++ Put "job.all" (CRef (result r)) :: puts "job." xs
              ++ [Fetch (JobTemplateAll (projectId (data s')))]
          ∧ on_success <$> pending (deliver i xs s') =
              (on_success <$> delete i (pending s')) ++ [KCacheTemplates cb])
       ∧ (on_success r = KCacheTemplates cb →
          trace (deliver i xs s') =
            trace s' ++ Put "jobTemplate.all" (CRef (result r))
              :: puts "jobTemplate." xs
              ++ [Fetch (WorkerAll (projectId (data s')))]
          ∧ on_success <$> pending (deliver i xs s') =
              (on_success <$> delete i (pending s')) ++ [KCacheWorkers cb])
       ∧ (on_success r = KCacheWorkers cb →
          trace (deliver i xs s') =
            trace s' ++ Put "worker.all" (CRef (result r))
              :: puts "worker." xs ++ [Invoke cb]
          ∧ pending (deliver i xs s') = delete i (pending s'))).
Proof.
  intros Hch n h s0 s1 s2 s3.
  assert (∀ s' i r xs,
       pending s' !! i = Some r → result r < length (heap s') →
       (on_success r = KCacheJobs cb →
          trace (deliver i xs s') =
            trace s' ++ Put "job.all" (CRef (result r)) :: puts "job." xs
              ++ [Fetch (JobTemplateAll (projectId (data s')))]
          ∧ on_success <$> pending (deliver i xs s') =
              (on_success <$> delete i (pending s')) ++ [KCacheTemplates cb])
       ∧ (on_success r = KCacheTemplates cb →
          trace (deliver i xs s') =
            trace s' ++ Put "jobTemplate.all" (CRef (result r))
              :: puts "jobTemplate." xs
              ++ [Fetch (WorkerAll (projectId (data s')))]
          ∧ on_success <$> pending (deliver i xs s') =
              (on_success <$> delete i (pending s')) ++ [KCacheWorkers cb])
       ∧ (on_success r = KCacheWorkers cb →
          trace (deliver i xs s') =
            trace s' ++ Put "worker.all" (CRef (result r))
              :: puts "worker." xs ++ [Invoke cb]
          ∧ pending (deliver i xs s') = delete i (pending s'))) as Hlocal.
  { intros s' i r xs Hi Hlt. split_and!; intros Hk.
    - rewrite (deliver_jobs cb i xs s' r) by done. simpl.
      by rewrite fmap_app.
    - rewrite (deliver_templates cb i xs s' r) by done. simpl.
      by rewrite fmap_app.
    - by rewrite (deliver_workers cb i xs s' r). }
  apply guard_on_change in Hch.
  destruct s as [d c hp pd tr]. simpl in Hch, n, h. subst n.
  set (d' := {| project := None; projectId := p; page := page d;
                jobs := None; jobTab := jobTab d; jobTemplates := None;
                jobFilter := jobFilter d; runs := None;
                wsConnected := wsConnected d |}).
  assert (s0 = {| data := d'; globalCache := ∅; heap := hp ++ [[]];
                  pending := pd ++ [{| req := JobAll p; result := h;
                                       on_success := KCacheJobs cb;
                                       on_error := None |}];
                  trace := tr ++ [RemoveAll; Fetch (JobAll p)] |}) as Hs0.
  { subst s0. unfold initialize. cbn [data]. rewrite Hch. simpl.
    by rewrite <- app_assoc. }
  assert (s1 = {| data := d';
                  globalCache :=
                    put_items "job." js (<["job.all" := CRef h]> ∅);
                  heap := hp ++ [js; []];
                  pending := pd ++ [{| req := JobTemplateAll p;
                                       result := S h;
                                       on_success := KCacheTemplates cb;
                                       on_error := None |}];
                  trace := trace s0 ++ Put "job.all" (CRef h)
                             :: puts "job." js
                             ++ [Fetch (JobTemplateAll p)] |}) as Hs1.
  { subst s1. rewrite Hs0.
    erewrite deliver_newest by reflexivity.
    cbn [on_success run_cont heap cache_put]. rewrite lookup_newest.
    rewrite put_each_eq. unfold fetch. simpl.
    rewrite length_app, Nat.add_1_r. fold h.
    by rewrite <- !app_assoc. }
  assert (s2 = {| data := d';
                  globalCache :=
                    put_items "jobTemplate." ts
                      (<["jobTemplate.all" := CRef (S h)]> (globalCache s1));
                  heap := hp ++ [js; ts; []];
                  pending := pd ++ [{| req := WorkerAll p;
                                       result := S (S h);
                                       on_success := KCacheWorkers cb;
                                       on_error := None |}];
                  trace := trace s1 ++ Put "jobTemplate.all" (CRef (S h))
                             :: puts "jobTemplate." ts
                             ++ [Fetch (WorkerAll p)] |}) as Hs2.
  { subst s2. rewrite Hs1.
    erewrite (deliver_newest _ pd (hp ++ [js]) [] ts);
      [| reflexivity | by rewrite <- app_assoc
       | by simpl; rewrite length_app, Nat.add_1_r ].
    cbn [on_success run_cont heap cache_put]. rewrite lookup_newest.
    rewrite put_each_eq. unfold fetch. simpl.
    rewrite !length_app, !Nat.add_1_r. fold h.
    by rewrite <- !app_assoc. }
  assert (s3 = {| data := d';
                  globalCache :=
                    put_items "worker." ws
                      (<["worker.all" := CRef (S (S h))]> (globalCache s2));
                  heap := hp ++ [js; ts; ws];
                  pending := pd;
                  trace := trace s2 ++ Put "worker.all" (CRef (S (S h)))
                             :: puts "worker." ws ++ [Invoke cb] |}) as Hs3.
  { subst s3. rewrite Hs2.
    erewrite (deliver_newest _ pd (hp ++ [js; ts]) [] ws);
      [| reflexivity | by rewrite <- app_assoc
       | by simpl; rewrite length_app, Nat.add_comm ].
    cbn [on_success run_cont heap cache_put]. rewrite lookup_newest.
    rewrite put_each_eq. unfold invoke. simpl.
    rewrite !length_app. simpl. rewrite Nat.add_comm. simpl. fold h.
    by rewrite <- !app_assoc. }
  assert (∀ k (l : list (list item)) (x : list item),
            l !! k = Some x → (hp ++ l) !! (k + h) = Some x) as Hheap.
  { intros k l x Hl. rewrite Nat.add_comm. subst h.
    by rewrite lookup_app_r, Nat.add_comm, Nat.add_sub by lia. }
  split; [by rewrite Hs0|]. split; [by rewrite Hs1|].
  split; [by rewrite Hs2|]. split; [by rewrite Hs3|].
  split; [by rewrite Hs0|]. split; [by rewrite Hs1|].
  split; [by rewrite Hs2|]. split; [by rewrite Hs3|].
  rewrite Hs3. cbn [globalCache heap]. rewrite Hs2. cbn [globalCache].
  rewrite Hs1. cbn [globalCache].
  split.
  { rewrite put_items_lookup_other by key_ne.
    rewrite lookup_insert_ne by key_ne.
    rewrite put_items_lookup_other by key_ne.
    rewrite lookup_insert_ne by key_ne.
    rewrite put_items_lookup_other by key_ne.
    apply lookup_insert_eq. }
  split; [by apply (Hheap 0)|].
  split.
  { rewrite put_items_lookup_other by key_ne.
    rewrite lookup_insert_ne by key_ne.
    rewrite put_items_lookup_other by key_ne.
    apply lookup_insert_eq. }
  split; [by apply (Hheap 1)|].
  split.
  { rewrite put_items_lookup_other by key_ne.
    apply lookup_insert_eq. }
  split; [by apply (Hheap 2)|].
  split; [|split; [|split; [|exact Hlocal]]].
  - intros Hnd x Hx.
    rewrite put_items_lookup_other by key_ne.
    rewrite lookup_insert_ne by key_ne.
    rewrite put_items_lookup_other by key_ne.
    rewrite lookup_insert_ne by key_ne.
    by apply put_items_lookup_in.
  - intros Hnd x Hx.
    rewrite put_items_lookup_other by key_ne.
    rewrite lookup_insert_ne by key_ne.
    by apply put_items_lookup_in.
  - intros Hnd x Hx. by apply put_items_lookup_in.
Qed.

Lemma initialize_populates_in_sequence_witness :
  let s3 := exec [CallInitialize (JStr "7") "render";
                  Respond 0 [Item 1 "job"];
                  Respond 0 [Item 2 "template"];
                  Respond 0 [Item 3 "worker"]] init in
  trace s3 =
    [RemoveAll; Fetch (JobAll (JStr "7"));
     Put "job.all" (CRef 0); Put "job.1" (CItem (Item 1 "job"));
     Fetch (JobTemplateAll (JStr "7"));
     Put "jobTemplate.all" (CRef 1);
     Put "jobTemplate.2" (CItem (Item 2 "template"));
     Fetch (WorkerAll (JStr "7"));
     Put "worker.all" (CRef 2); Put "worker.3" (CItem (Item 3 "worker"));
     Invoke "render"]
  ∧ globalCache s3 !! "job.1" = Some (CItem (Item 1 "job")).
Proof.
  intros s3.
  destruct (initialize_populates_in_sequence (JStr "7") "render" init
              [Item 1 "job"] [Item 2 "template"] [Item 3 "worker"])
    as (_ & _ & _ & H3 & _ & _ & _ & _ & _ & _ & _ & _ & _ & _ & Hj & _).
  - by left.
  - split.
    + etransitivity; [exact H3|]. vm_compute. reflexivity.
    + apply (Hj ltac:(repeat constructor; set_solver) (Item 1 "job")).
      by left.
Defined.

(** ** The event loop: what the callbacks do to the state *)

Lemma push_each_eq (xs : list item) (h : handle) (s : state) :
  runs (data s) = Some h →
  push_each xs s =
    {| data := data s; globalCache := globalCache s;
       heap := alter (λ l, l ++ xs) h (heap s);
       pending := pending s; trace := trace s |}.
Proof.
  revert s. induction xs as [|x xs IH]; intros s Hr; simpl.
  - rewrite list_alter_id by (intros; apply app_nil_r). by destruct s.
  - unfold push. rewrite Hr, IH by done. simpl.
    rewrite list_alter_alter_eq. f_equal.
    apply list_alter_ext; [|done]. intros l _. simpl.
    by rewrite <- app_assoc.
Qed.

Lemma query_each_eq (xs : list item) (s : state) :
  query_each xs s =
    {| data := data s; globalCache := globalCache s;
       heap := heap s ++ replicate (length xs) [];
       pending := pending s ++ completed_queries (length (heap s)) xs;
       trace := trace s
                ++ ((λ job, Fetch (RunQuery (id job) 1 "completed")) <$> xs) |}.
Proof.
  unfold query_each. revert s.
  induction xs as [|x xs IH]; intros s; simpl.
  - destruct s; simpl. by rewrite !app_nil_r.
  - rewrite IH. simpl. rewrite length_app, Nat.add_1_r.
    by rewrite <- !app_assoc.
Qed.

Lemma completed_queries_owed (srv : request → list item) (h0 : handle)
    (xs : list item) :
  completed_queries h0 xs ≫= owed srv = xs ≫= completed_of srv.
Proof.
  revert h0. induction xs as [|x xs IH]; intros h0; [done|].
  cbn [completed_queries]. by rewrite !bind_cons, IH.
Qed.

Lemma completed_queries_results (h0 : handle) (xs : list item) :
  Forall (λ r, h0 ≤ result r < h0 + length xs
               ∧ on_error r = None ∧ on_success r = KPushCompleted)
         (completed_queries h0 xs).
Proof.
  revert h0. induction xs as [|x xs IH]; intros h0; simpl; constructor.
  - simpl. split; [lia | done].
  - eapply Forall_impl; [apply IH|]. simpl.
    intros r (? & ? & ?). split; [lia|done].
Qed.

Lemma completed_queries_length (h0 : handle) (xs : list item) :
  length (completed_queries h0 xs) = length xs.
Proof.
  revert h0. induction xs as [|x xs IH]; intros h0; simpl; [done|].
  by rewrite IH.
Qed.

Lemma push_each_frame (xs : list item) (s : state) :
  data (push_each xs s) = data s
  ∧ globalCache (push_each xs s) = globalCache s
  ∧ pending (push_each xs s) = pending s
  ∧ length (heap (push_each xs s)) = length (heap s).
Proof.
  destruct (runs (data s)) as [h|] eqn:Hr.
  - rewrite (push_each_eq xs h) by done. simpl. by rewrite length_alter.
  - destruct xs as [|x xs]; simpl; [done|]. unfold push. by rewrite Hr.
Qed.

(** No callback assigns a field of [data]. *)
Lemma run_cont_data (k : cont) (h : handle) (s : state) :
  data (run_cont k h s) = data s.
Proof.
  destruct k; cbn [run_cont]; rewrite ?put_each_eq, ?query_each_eq; try done.
  - apply push_each_frame.
  - apply push_each_frame.
Qed.

Lemma deliver_data (i : nat) (resp : list item) (s : state) :
  data (deliver i resp s) = data s.
Proof.
  unfold deliver. destruct (pending s !! i) as [r|]; [|done].
  by rewrite run_cont_data.
Qed.

(** ** Well-formedness of the reachable states *)

Lemma well_formed_ext (s s' : state) (new : list pending_req) :
  pending s' = pending s ++ new →
  length (heap s) ≤ length (heap s') →
  Forall (λ r, result r < length (heap s') ∧ on_error r = None) new →
  well_formed s → well_formed s'.
Proof.
  unfold well_formed. intros -> Hle Hnew Hwf.
  apply Forall_app. split; [|done].
  eapply Forall_impl; [exact Hwf|]. simpl. intros r [? ?]. split; [lia|done].
Qed.

Lemma well_formed_frame (s s' : state) :
  pending s' = pending s →
  length (heap s) ≤ length (heap s') →
  well_formed s → well_formed s'.
Proof.
  intros Hp Hle. apply (well_formed_ext s s' []); [|done|constructor].
  by rewrite app_nil_r.
Qed.

Lemma well_formed_fetch (r : request) (k : cont) (s : state) :
  well_formed s → well_formed (fetch r k None s).2.
Proof.
  eapply (well_formed_ext s); [simpl; reflexivity | |]; simpl.
  - rewrite length_app. lia.
  - constructor; [|constructor]. simpl. rewrite length_app. simpl.
    split; [lia|done].
Qed.

Ltac wf_frame s :=
  apply (well_formed_frame s);
  [ reflexivity | simpl; rewrite ?length_app, ?length_insert; lia | try done ].

Lemma well_formed_run_cont (k : cont) (h : handle) (s : state) :
  well_formed s → well_formed (run_cont k h s).
Proof.
  intros Hwf. destruct k; cbn [run_cont]; try done.
  - apply well_formed_fetch. rewrite put_each_eq. wf_frame s.
  - apply well_formed_fetch. rewrite put_each_eq. wf_frame s.
  - rewrite put_each_eq. wf_frame s.
  - destruct (push_each_frame (default [] (heap s !! h)) s)
      as (_ & _ & Hp & Hl).
    apply (well_formed_frame s); [done | lia | done].
  - rewrite query_each_eq.
    eapply (well_formed_ext s); [reflexivity | | | done]; simpl.
    + rewrite length_app. lia.
    + eapply Forall_impl; [apply completed_queries_results|]. simpl.
      intros r (? & ? & _). rewrite length_app, length_replicate.
      split; [lia|done].
  - destruct (push_each_frame (default [] (heap s !! h)) s)
      as (_ & _ & Hp & Hl).
    apply (well_formed_frame s); [done | lia | done].
Qed.

Lemma well_formed_take_pending (i : nat) (s : state) :
  well_formed s → well_formed (take_pending i s).
Proof. unfold well_formed. simpl. apply Forall_delete. Qed.

Lemma well_formed_deliver (i : nat) (resp : list item) (s : state) :
  well_formed s → well_formed (deliver i resp s).
Proof.
  intros Hwf. unfold deliver. destruct (pending s !! i) as [r|]; [|done].
  apply well_formed_run_cont.
  wf_frame (take_pending i s). by apply well_formed_take_pending.
Qed.

(** A failed request leaves the service: nothing of the service runs. *)
Lemma well_formed_fail (i : nat) (s : state) :
  well_formed s →
  fail i s = take_pending i s ∨ (fail i s = s ∧ pending s !! i = None).
Proof.
  intros Hwf. unfold fail. destruct (pending s !! i) as [r|] eqn:Hi.
  - left. apply (Forall_lookup_1 _ _ _ _ Hwf) in Hi as [_ ->]. done.
  - by right.
Qed.

Lemma well_formed_step (a : action) (s : state) :
  well_formed s → well_formed (step s a).
Proof.
  intros Hwf. destruct a as [p|p cb| |success| | |i resp|i]; simpl.
  - unfold setProjectId. case_match; [|done]. wf_frame s.
  - unfold initialize. case_match.
    + apply well_formed_fetch. wf_frame s.
    + wf_frame s.
  - unfold getProject. case_match; [done|].
    wf_frame (fetch (ProjectGet (projectId (data s))) KNone None s).2.
    by apply well_formed_fetch.
  - unfold getAllJobs. case_match; [done|].
    set (k := match success with Some f => KUser f | None => KNone end).
    wf_frame (fetch (JobAll (projectId (data s))) k None s).2.
    by apply well_formed_fetch.
  - unfold getAllJobTemplates. case_match; [done|].
    wf_frame (fetch (JobTemplateAll (projectId (data s))) KNone None s).2.
    by apply well_formed_fetch.
  - unfold getRuns. case_match; [done|]. cbn [alloc snd].
    do 4 apply well_formed_fetch. wf_frame s.
  - by apply well_formed_deliver.
  - destruct (well_formed_fail i s Hwf) as [-> | [-> _]]; [|done].
    by apply well_formed_take_pending.
Qed.

Lemma exec_snoc (acts : list action) (a : action) (s : state) :
  exec (acts ++ [a]) s = step (exec acts s) a.
Proof. unfold exec. by rewrite foldl_app. Qed.

Lemma reachable_well_formed (s : state) : reachable s → well_formed s.
Proof.
  intros [acts ->]. induction acts as [|a acts IH] using rev_ind.
  - constructor.
  - rewrite exec_snoc. by apply well_formed_step.
Qed.

(** ** globalState: the run list *)

Lemma owed_not_run_query (srv : request → list item) (ps : list pending_req) :
  Forall (λ r, is_run_query (on_success r) = false) ps →
  ps ≫= owed srv = [].
Proof.
  induction 1 as [|r ps Hr _ IH]; [done|].
  rewrite bind_cons, IH, app_nil_r. unfold owed.
  by destruct (on_success r).
Qed.

Lemma Forall_results_grow (h n m : nat) (ps : list pending_req) :
  n ≤ m →
  Forall (λ r, result r < n ∧ result r ≠ h) ps →
  Forall (λ r, result r < m ∧ result r ≠ h) ps.
Proof.
  intros Hle Hps. eapply Forall_impl; [exact Hps|].
  simpl. intros r [? ?]. split; [lia|done].
Qed.

(** Answering one request: the runs it brings are appended to the run
    list, and are no longer owed. *)
Lemma serve_step (srv : request → list item) (h : handle) (i : nat)
    (s : state) (l : list item) :
  runs_wf h s →
  heap s !! h = Some l →
  runs_wf h (serve srv i s)
  ∧ heap (serve srv i s) !! h = Some (l ++ arriving srv i s)
  ∧ arriving srv i s ++ (pending (serve srv i s) ≫= owed srv)
      ≡ₚ pending s ≫= owed srv.
Proof.
  intros (Hr & Hh & Hres) Hl. unfold serve, deliver, arriving.
  destruct (pending s !! i) as [r|] eqn:Hi;
    [|by rewrite app_nil_r; split_and!].
  destruct (Forall_lookup_1 _ _ _ _ Hres Hi) as [Hrlt Hrne].
  set (resp := srv (req r)).
  set (mid := store (result r) resp (take_pending i s)).
  assert (heap mid !! h = Some l) as Hmid_l
    by (simpl; by rewrite list_lookup_insert_ne).
  assert (default [] (heap mid !! result r) = resp) as Hmid_r
    by (simpl; by rewrite list_lookup_insert_eq).
  assert (length (heap mid) = length (heap s)) as Hlen
    by (simpl; by rewrite length_insert).
  assert (Forall (λ r, result r < length (heap mid) ∧ result r ≠ h)
            (pending mid)) as Hres'.
  { rewrite Hlen. simpl. by apply Forall_delete. }
  assert (pending s ≫= owed srv
          ≡ₚ owed srv r ++ (pending mid ≫= owed srv)) as Hperm.
  { simpl. rewrite (delete_Permutation _ _ _ Hi) at 1. by rewrite bind_cons. }
  assert (h < length (heap mid)) as Hh' by lia.
  assert (runs (data mid) = Some h) as Hr' by done.
  rewrite Hperm.
  clearbody mid. clear Hi Hres Hperm Hl Hrlt Hlen Hh Hr.
  unfold owed at 2. unfold runs_wf.
  destruct (on_success r); cbn [run_cont is_push]; rewrite ?Hmid_r, ?app_nil_r.
  - (* KNone *) by split_and!.
  - (* KUser *) by split_and!.
  - (* KCacheJobs *)
    rewrite put_each_eq. unfold fetch. simpl.
    split_and!; [done | rewrite length_app; lia | | by rewrite lookup_app_l |].
    + apply Forall_app. split.
      * eapply Forall_results_grow; [|done]. rewrite length_app. lia.
      * constructor; [|done]. simpl. rewrite length_app. simpl. lia.
    + by rewrite bind_app, bind_singleton, app_nil_r.
  - (* KCacheTemplates *)
    rewrite put_each_eq. unfold fetch. simpl.
    split_and!; [done | rewrite length_app; lia | | by rewrite lookup_app_l |].
    + apply Forall_app. split.
      * eapply Forall_results_grow; [|done]. rewrite length_app. lia.
      * constructor; [|done]. simpl. rewrite length_app. simpl. lia.
    + by rewrite bind_app, bind_singleton, app_nil_r.
  - (* KCacheWorkers *)
    rewrite put_each_eq. simpl. by split_and!.
  - (* KPushRuns *)
    rewrite (push_each_eq resp h) by done. cbn [data heap pending].
    split_and!; [done | by rewrite length_alter | by rewrite length_alter
                | | done].
    by rewrite list_lookup_alter_eq, Hmid_l.
  - (* KQueryCompleted *)
    rewrite query_each_eq. simpl.
    split_and!; [done | rewrite length_app; lia | | by rewrite lookup_app_l |].
    + apply Forall_app. split.
      * eapply Forall_results_grow; [|done]. rewrite length_app. lia.
      * eapply Forall_impl; [apply completed_queries_results|]. simpl.
        intros q [? _]. rewrite length_app, length_replicate. lia.
    + rewrite bind_app, completed_queries_owed. apply Permutation_app_comm.
  - (* KPushCompleted *)
    rewrite (push_each_eq resp h) by done. cbn [data heap pending].
    split_and!; [done | by rewrite length_alter | by rewrite length_alter
                | | done].
    by rewrite list_lookup_alter_eq, Hmid_l.
Qed.

Lemma serve_data (srv : request → list item) (i : nat) (s : state) :
  data (serve srv i s) = data s.
Proof.
  unfold serve. destruct (pending s !! i); [apply deliver_data | done].
Qed.

(** The guard of [setProjectId] and [initialize] fails for the stored
    project, when its id is truthy. *)
Lemma guard_keeps (stored p : jsval) :
  truthy stored && loose_eq stored p = true →
  negb (truthy stored) || negb (loose_eq stored p) = false.
Proof. by destruct (truthy stored), (loose_eq stored p). Qed.

(** A fetch whose callback is none of [getRuns] leaves the run list and
    what is owed to it as they are. *)
Lemma fetch_keeps_runs (srv : request → list item) (h : handle)
    (r : request) (k : cont) (s : state) (l : list item) :
  runs_wf h s → heap s !! h = Some l → is_run_query k = false →
  runs_wf h (fetch r k None s).2
  ∧ data (fetch r k None s).2 = data s
  ∧ heap (fetch r k None s).2 !! h = Some l
  ∧ pending (fetch r k None s).2 ≫= owed srv = pending s ≫= owed srv.
Proof.
  intros (Hr & Hh & Hres) Hl Hk. unfold fetch, runs_wf. simpl.
  rewrite length_app. simpl. split_and!; [done | lia | | done | |].
  - apply Forall_app. split.
    + eapply Forall_impl; [exact Hres|]. simpl. intros ? [? ?].
      split; [lia | done].
    + constructor; [|done]. simpl. lia.
  - by rewrite lookup_app_l.
  - rewrite bind_app, bind_singleton. unfold owed at 2. simpl.
    destruct k; try discriminate; by rewrite app_nil_r.
Qed.

Ltac getter_keeps Hf :=
  match goal with
  | |- context [fetch ?r ?k None ?s] =>
      destruct (fetch r k None s) as [h0 s0]
  end;
  cbn [snd] in Hf; destruct Hf as ((Hr & Hh & Hres) & Hd & Hl' & Ho);
  unfold runs_wf; cbn [snd data heap pending runs projectId set_project
                       set_jobs set_jobTemplates];
  rewrite Hd in Hr |- *; done.

(** A call that keeps the project adds nothing to the run list and
    takes nothing from what is owed to it. *)
Lemma call_keeps_runs (srv : request → list item) (h : handle)
    (a : action) (s : state) (l : list item) :
  runs_wf h s → heap s !! h = Some l →
  keeps_project (projectId (data s)) (Call a) = true →
  runs_wf h (step s a)
  ∧ projectId (data (step s a)) = projectId (data s)
  ∧ heap (step s a) !! h = Some l
  ∧ pending (step s a) ≫= owed srv = pending s ≫= owed srv.
Proof.
  intros Hwf Hl Hkeep.
  destruct a as [p|p cb| |success| | |i resp|i]; cbn [step];
    cbn [keeps_project] in Hkeep; try discriminate.
  - unfold setProjectId. by rewrite (guard_keeps _ _ Hkeep).
  - unfold initialize. by rewrite (guard_keeps _ _ Hkeep).
  - unfold getProject. destruct (project (data s)); [done|].
    pose proof (fetch_keeps_runs srv h (ProjectGet (projectId (data s)))
                  KNone s l Hwf Hl eq_refl) as Hf.
    getter_keeps Hf.
  - unfold getAllJobs. destruct (jobs (data s)); [done|].
    set (k := match success with Some f => KUser f | None => KNone end).
    assert (is_run_query k = false) as Hk by (by destruct success).
    pose proof (fetch_keeps_runs srv h (JobAll (projectId (data s)))
                  k s l Hwf Hl Hk) as Hf.
    getter_keeps Hf.
  - unfold getAllJobTemplates. destruct (jobTemplates (data s)); [done|].
    pose proof (fetch_keeps_runs srv h (JobTemplateAll (projectId (data s)))
                  KNone s l Hwf Hl eq_refl) as Hf.
    getter_keeps Hf.
  - unfold getRuns. destruct Hwf as (Hr & ?). by rewrite Hr.
Qed.

(** One move of a session that keeps the project: the runs it brings are
    appended to the run list, and are no longer owed. *)
Lemma play_step (srv : request → list item) (h : handle) (m : move)
    (s : state) (l : list item) :
  runs_wf h s → heap s !! h = Some l →
  keeps_project (projectId (data s)) m = true →
  runs_wf h (play srv s m)
  ∧ projectId (data (play srv s m)) = projectId (data s)
  ∧ heap (play srv s m) !! h = Some (l ++ brings srv m s)
  ∧ brings srv m s ++ (pending (play srv s m) ≫= owed srv)
      ≡ₚ pending s ≫= owed srv.
Proof.
  intros Hwf Hl Hkeep. destruct m as [i|a]; cbn [play brings].
  - destruct (serve_step srv h i s l Hwf Hl) as (? & ? & ?).
    by rewrite serve_data.
  - destruct (call_keeps_runs srv h a s l Hwf Hl Hkeep) as (? & ? & ? & ->).
    by rewrite app_nil_r.
Qed.

(** Whatever the moves of a session that keeps the project, the run list
    is extended by the runs that arrive, in the order in which they
    arrive, and together with the runs still owed to it makes up the
    same list of runs. *)
Lemma session_appends (srv : request → list item) (h : handle)
    (ms : list move) (s : state) (l target : list item) :
  runs_wf h s → heap s !! h = Some l →
  l ++ (pending s ≫= owed srv) ≡ₚ target →
  Forall (λ m, keeps_project (projectId (data s)) m = true) ms →
  let s' := session srv ms s in
  runs (data s') = Some h
  ∧ heap s' !! h = Some (l ++ received srv ms s)
  ∧ (l ++ received srv ms s) ++ (pending s' ≫= owed srv) ≡ₚ target.
Proof.
  unfold session. revert s l.
  induction ms as [|m ms IH]; intros s l Hwf Hl Hperm Hms; simpl.
  - rewrite app_nil_r. by destruct Hwf.
  - apply Forall_cons in Hms as [Hm Hms].
    destruct (play_step srv h m s l Hwf Hl Hm) as (Hwf' & Hp & Hl' & Hperm').
    rewrite <- Hp in Hms.
    destruct (IH _ _ Hwf' Hl') as (H1 & H2 & H3); [|done|].
    + by rewrite <- app_assoc, Hperm'.
    + by rewrite app_assoc.
Qed.

Lemma session_answers (srv : request → list item) (sched : list nat)
    (s : state) :
  session srv (Answer <$> sched) s = run_schedule srv sched s.
Proof.
  unfold session, run_schedule. revert s.
  induction sched as [|i sched IH]; intros s; [done|]. simpl. apply IH.
Qed.

(** [getRuns] on a null [data.runs] returns a new empty list with its
    four queries outstanding. *)
Lemma getRuns_fresh (s : state) :
  runs (data s) = None →
  let h := length (heap s) in
  let pid := projectId (data s) in
  getRuns s =
    (h,
     {| data := data (set_runs (Some h) s);
        globalCache := globalCache s;
        heap := heap s ++ [[]; []; []; []; []];
        pending := pending s ++
          [{| req := RunAll "scheduled" pid; result := S h;
              on_success := KPushRuns; on_error := None |};
           {| req := RunAll "in_queue" pid; result := S (S h);
              on_success := KPushRuns; on_error := None |};
           {| req := RunAll "started" pid; result := S (S (S h));
              on_success := KPushRuns; on_error := None |};
           {| req := JobAll pid; result := S (S (S (S h)));
              on_success := KQueryCompleted; on_error := None |}];
        trace := trace s ++
          [Fetch (RunAll "scheduled" pid); Fetch (RunAll "in_queue" pid);
           Fetch (RunAll "started" pid); Fetch (JobAll pid)] |}).
Proof.
  intros Hr h pid. unfold getRuns. rewrite Hr. simpl.
  rewrite !length_app. simpl. rewrite !Nat.add_1_r.
  by rewrite <- !app_assoc.
Qed.

(** The invariant holds when [getRuns] returns. *)
Lemma runs_inv_getRuns (srv : request → list item) (s : state) :
  well_formed s →
  runs (data s) = None →
  Forall (λ r, is_run_query (on_success r) = false) (pending s) →
  runs_inv srv (getRuns s).1 (merged_runs srv (projectId (data s)))
           (getRuns s).2.
Proof.
  intros Hwf Hr Hold. rewrite (getRuns_fresh s Hr).
  unfold runs_inv, runs_wf. simpl.
  split_and!; [done | rewrite length_app; simpl; lia | |].
  - apply Forall_app. split.
    + eapply Forall_impl; [exact Hwf|]. simpl. intros r [? _].
      rewrite length_app. simpl. lia.
    + repeat constructor; simpl; rewrite ?length_app; simpl; lia.
  - exists []. split; [by rewrite list_lookup_middle|].
    rewrite bind_app, (owed_not_run_query srv _ Hold). simpl.
    unfold merged_runs, owed. simpl. by rewrite app_nil_r.
Qed.

(** Answering the oldest requests first: a prefix [ps] of run-pushing
    requests adds the responses to the run list in their order. *)
Lemma serve_oldest_pushes (srv : request → list item) (h : handle)
    (ps rest : list pending_req) (s : state) (l : list item) :
  runs (data s) = Some h →
  heap s !! h = Some l →
  pending s = ps ++ rest →
  Forall (λ r, (on_success r = KPushRuns ∨ on_success r = KPushCompleted)
               ∧ result r < length (heap s) ∧ result r ≠ h) ps →
  let s' := run_schedule srv (replicate (length ps) 0) s in
  pending s' = rest
  ∧ data s' = data s
  ∧ length (heap s') = length (heap s)
  ∧ heap s' !! h = Some (l ++ (ps ≫= owed srv)).
Proof.
  revert s l. induction ps as [|p ps IH]; intros s l Hr Hl Hp Hps.
  { simpl. by rewrite app_nil_r. }
  apply Forall_cons in Hps as [(Hk & Hlt & Hne) Hps].
  cbn [length replicate]. unfold run_schedule. cbn [foldl].
  fold (run_schedule srv (replicate (length ps) 0) (serve srv 0 s)).
  set (resp := srv (req p)).
  assert (serve srv 0 s =
            {| data := data s; globalCache := globalCache s;
               heap := alter (λ l, l ++ resp) h (<[result p := resp]> (heap s));
               pending := ps ++ rest; trace := trace s |}) as Hserve.
  { unfold serve, deliver. rewrite Hp. cbn [lookup list_lookup app].
    fold resp.
    assert (run_cont (on_success p) (result p)
              (store (result p) resp (take_pending 0 s))
            = push_each resp (store (result p) resp (take_pending 0 s)))
      as ->.
    { destruct Hk as [-> | ->]; cbn [run_cont heap store];
        by rewrite list_lookup_insert_eq. }
    rewrite (push_each_eq resp h) by done.
    cbn [data globalCache heap pending trace store take_pending].
    by rewrite Hp. }
  rewrite Hserve.
  edestruct (IH {| data := data s; globalCache := globalCache s;
                   heap := alter (λ l, l ++ resp) h
                             (<[result p := resp]> (heap s));
                   pending := ps ++ rest; trace := trace s |} (l ++ resp))
    as (H1 & H2 & H3 & H4); [done | | done | |].
  - cbn [heap]. by rewrite list_lookup_alter_eq, list_lookup_insert_ne, Hl.
  - cbn [heap]. by rewrite length_alter, length_insert.
  - split_and!; [done | done | |].
    + rewrite H3. cbn [heap]. by rewrite length_alter, length_insert.
    + rewrite H4, bind_cons, <- app_assoc. f_equal. f_equal.
      unfold owed. by destruct Hk as [-> | ->].
Qed.

Lemma run_schedule_app (srv : request → list item) (a b : list nat)
    (s : state) :
  run_schedule srv (a ++ b) s = run_schedule srv b (run_schedule srv a s).
Proof. unfold run_schedule. apply foldl_app. Qed.

(** With nothing else outstanding, answering the queries of [getRuns]
    in the order they were issued fills the list in that very order. *)
Lemma getRuns_in_order (srv : request → list item) (s : state) :
  runs (data s) = None →
  pending s = [] →
  let pid := projectId (data s) in
  let s' := run_schedule srv (replicate (4 + length (srv (JobAll pid))) 0)
              (getRuns s).2 in
  pending s' = []
  ∧ runs (data s') = Some (getRuns s).1
  ∧ heap s' !! (getRuns s).1 = Some (merged_runs srv pid).
Proof.
  intros Hr Hp pid.
  rewrite (getRuns_fresh s Hr). cbn [fst snd]. rewrite Hp. cbn [app].
  fold pid. set (h := length (heap s)).
  set (p1 := {| req := RunAll "scheduled" pid; result := S h;
                on_success := KPushRuns; on_error := None |}).
  set (p2 := {| req := RunAll "in_queue" pid; result := S (S h);
                on_success := KPushRuns; on_error := None |}).
  set (p3 := {| req := RunAll "started" pid; result := S (S (S h));
                on_success := KPushRuns; on_error := None |}).
  set (pj := {| req := JobAll pid; result := S (S (S (S h)));
                on_success := KQueryCompleted; on_error := None |}).
  set (s1 := {| data := data (set_runs (Some h) s);
                pending := [p1; p2; p3; pj] |}).
  replace (4 + length (srv (JobAll pid)))
    with (3 + (1 + length (srv (JobAll pid)))) by lia.
  rewrite replicate_add, run_schedule_app.
  destruct (serve_oldest_pushes srv h [p1; p2; p3] [pj] s1 [])
    as (HA1 & HA2 & HA3 & HA4).
  { done. }
  { subst s1 h. cbn [heap]. by rewrite list_lookup_middle. }
  { done. }
  { subst s1 h. cbn [heap]. rewrite length_app. cbn [length].
    repeat constructor; simpl; lia. }
  cbn [length] in HA1, HA2, HA3, HA4.
  set (sA := run_schedule srv (replicate 3 0) s1) in *.
  assert (length (heap sA) = h + 5) as HlenA.
  { rewrite HA3. subst s1 h. cbn [heap]. by rewrite length_app. }
  rewrite replicate_add, run_schedule_app.
  set (js := srv (JobAll pid)).
  assert (run_schedule srv (replicate 1 0) sA =
            {| data := data sA; globalCache := globalCache sA;
               heap := <[result pj := js]> (heap sA)
                       ++ replicate (length js) [];
               pending := completed_queries (length (heap sA)) js;
               trace := trace sA ++
                 ((λ job, Fetch (RunQuery (id job) 1 "completed")) <$> js) |})
    as HB.
  { cbn [replicate run_schedule foldl]. unfold serve, deliver.
    rewrite HA1. cbn [lookup list_lookup]. cbn [run_cont on_success pj req].
    fold js. cbn [heap store take_pending].
    rewrite list_lookup_insert_eq by (unfold pj; cbn [result]; lia).
    cbn [default]. rewrite query_each_eq.
    cbn [data globalCache heap pending trace store take_pending].
    by rewrite HA1, length_insert. }
  rewrite HB.
  edestruct (serve_oldest_pushes srv h
               (completed_queries (length (heap sA)) js) []
               {| data := data sA; globalCache := globalCache sA;
                  heap := <[result pj := js]> (heap sA)
                          ++ replicate (length js) [];
                  pending := completed_queries (length (heap sA)) js;
                  trace := trace sA ++
                    ((λ job, Fetch (RunQuery (id job) 1 "completed"))
                       <$> js) |})
    as (HC1 & HC2 & HC3 & HC4).
  { cbn [data]. by rewrite HA2. }
  { cbn [heap]. rewrite lookup_app_l by (rewrite length_insert; lia).
    rewrite list_lookup_insert_ne by (unfold pj; cbn [result]; lia).
    exact HA4. }
  { cbn [pending]. by rewrite app_nil_r. }
  { cbn [heap]. eapply Forall_impl; [apply completed_queries_results|].
    cbn beta. intros q (Hq & _ & Hk). rewrite length_app, length_insert,
      length_replicate.
    split; [by right | lia]. }
  rewrite completed_queries_length in HC1, HC2, HC4.
  split_and!.
  - exact HC1.
  - rewrite HC2. cbn [data]. by rewrite HA2.
  - rewrite HC4, completed_queries_owed. f_equal.
    unfold merged_runs, owed. simpl. fold js.
    by rewrite app_nil_r, <- !app_assoc.
Qed.

(** C5, amended: the run list built by [getRuns] is the merge of its
    four queries, provided no run query of an earlier call is still
    outstanding when the list is built and the project is not changed
    before all the callbacks have run.  Called with [data.runs] null,
    and whatever happens next of answers of the server (in any order),
    calls of the getters and calls of [setProjectId] or [initialize] for
    the same project, the list holds at every moment the runs that have
    arrived so far, in their order of arrival, duplicates included; once
    no run query is outstanding these are exactly the scheduled, the
    queued and the started runs of the project and the last completed
    run of each of its jobs; answered in the order of issue, the list is
    the concatenation of the four results in that order. *)
Theorem getRuns_merges_four_queries (srv : request → list item)
    (s : state) :
  reachable s →
  runs (data s) = None →
  Forall (λ r, is_run_query (on_success r) = false) (pending s) →
  let h := (getRuns s).1 in
  let s1 := (getRuns s).2 in
  let pid := projectId (data s) in
  (∀ ms,
     Forall (λ m, keeps_project pid m = true) ms →
     let s' := session srv ms s1 in
     runs (data s') = Some h
     ∧ heap s' !! h = Some (received srv ms s1)
     ∧ (Forall (λ r, is_run_query (on_success r) = false) (pending s') →
        received srv ms s1 ≡ₚ merged_runs srv pid))
  ∧ (pending s = [] →
     let s' := session srv
                 (replicate (4 + length (srv (JobAll pid))) (Answer 0)) s1 in
     pending s' = [] ∧ heap s' !! h = Some (merged_runs srv pid)).
Proof.
  intros Hreach Hr Hold h s1 pid.
  pose proof (runs_inv_getRuns srv s (reachable_well_formed s Hreach)
                Hr Hold) as Hinv.
  fold h s1 pid in Hinv.
  assert (heap s1 !! h = Some [] ∧ projectId (data s1) = pid)
    as [Hempty Hpid].
  { subst h s1. rewrite (getRuns_fresh s Hr). cbn [fst snd heap].
    by rewrite list_lookup_middle. }
  destruct Hinv as (Hwf & l & Hl & Hperm).
  rewrite Hempty in Hl. injection Hl as <-.
  split.
  - intros ms Hms s'. rewrite <- Hpid in Hms.
    destruct (session_appends srv h ms s1 [] _ Hwf Hempty Hperm Hms)
      as (H1 & H2 & H3).
    fold s' in H1, H2, H3. split_and!; [done | done |].
    intros Hdone. rewrite (owed_not_run_query srv _ Hdone) in H3.
    by rewrite app_nil_r in H3.
  - intros Hp s'. subst s'.
    rewrite <- fmap_replicate, session_answers.
    destruct (getRuns_in_order srv s Hr Hp) as (H1 & _ & H3). by split.
Qed.

Lemma getRuns_merges_four_queries_witness :
  let s := setProjectId (JStr "7") init in
  let ms := [Answer 3; Call CallGetRuns; Answer 0;
             Call (CallSetProjectId (JStr "7")); Answer 0;
             Call (CallGetAllJobs None); Answer 0; Answer 1; Answer 0] in
  heap (session demo_server ms (getRuns s).2) !! 0 =
    Some [Item 1 "nightly"; Item 2 "hourly"; Item 3 "backup"]
  ∧ [Item 1 "nightly"; Item 2 "hourly"; Item 3 "backup"]
    ≡ₚ merged_runs demo_server (JStr "7").
Proof.
  intros s ms.
  destruct (getRuns_merges_four_queries demo_server s) as (H & _).
  - exists [CallSetProjectId (JStr "7")]. reflexivity.
  - reflexivity.
  - constructor.
  - destruct (H ms) as (_ & H2 & H3).
    + by repeat constructor.
    + split; [exact H2|]. apply H3. by repeat constructor.
Defined.

(** C5 as stated fails when run queries of an earlier call are still
    outstanding: their callbacks push into the list that [data.runs]
    holds when the response arrives, so after a change of project the new
    list also receives the runs of the old one. *)
Lemma getRuns_stale_responses_leak :
  let s := exec [CallSetProjectId (JStr "1"); CallGetRuns;
                 CallSetProjectId (JStr "7")] init in
  let s' := run_schedule demo_server (replicate 9 0) (getRuns s).2 in
  runs (data s) = None
  ∧ projectId (data s) = JStr "7"
  ∧ pending s' = []
  ∧ runs (data s') = Some (getRuns s).1
  ∧ heap s' !! (getRuns s).1 =
      Some [Item 9 "weekly"; Item 1 "nightly"; Item 2 "hourly";
            Item 3 "backup"]
  ∧ merged_runs demo_server (JStr "7") =
      [Item 1 "nightly"; Item 2 "hourly"; Item 3 "backup"]
  ∧ ¬ ([Item 9 "weekly"; Item 1 "nightly"; Item 2 "hourly"; Item 3 "backup"]
       ≡ₚ merged_runs demo_server (JStr "7")).
Proof.
  split_and!; try (vm_compute; reflexivity).
  intros Hp. apply Permutation_length in Hp. discriminate Hp.
Qed.

(** A response to a run query is appended to the list that [data.runs]
    holds when it arrives. *)
Lemma deliver_appends (s : state) (h i : nat) (r : pending_req)
    (resp l : list item) :
  runs (data s) = Some h →
  heap s !! h = Some l →
  pending s !! i = Some r →
  on_success r = KPushRuns ∨ on_success r = KPushCompleted →
  result r < length (heap s) → result r ≠ h →
  heap (deliver i resp s) !! h = Some (l ++ resp).
Proof.
  intros Hr Hl Hi Hk Hlt Hne. unfold deliver. rewrite Hi.
  assert (run_cont (on_success r) (result r)
            (store (result r) resp (take_pending i s))
          = push_each resp (store (result r) resp (take_pending i s)))
    as ->.
  { destruct Hk as [-> | ->]; cbn [run_cont heap store take_pending];
      by rewrite list_lookup_insert_eq. }
  rewrite (push_each_eq resp h) by done.
  cbn [heap store take_pending].
  by rewrite list_lookup_alter_eq, list_lookup_insert_ne, Hl.
Qed.

(** C2, amended: [getRuns] does not wait for its queries.  It issues the
    four of them and returns the run list at once: the list the caller
    receives is still empty and all four queries are outstanding; each
    response is appended to that same list afterwards, when it arrives. *)
Theorem getRuns_returns_before_responses (s : state) :
  runs (data s) = None →
  let h := (getRuns s).1 in
  let s1 := (getRuns s).2 in
  let pid := projectId (data s) in
  heap s1 !! h = Some []
  ∧ runs (data s1) = Some h
  ∧ (on_success <$> drop (length (pending s)) (pending s1)) =
      [KPushRuns; KPushRuns; KPushRuns; KQueryCompleted]
  ∧ issued CallGetRuns s =
      [RunAll "scheduled" pid; RunAll "in_queue" pid; RunAll "started" pid;
       JobAll pid]
  ∧ (∀ k resp, k < 3 →
       heap (deliver (length (pending s) + k) resp s1) !! h = Some resp)
  ∧ (∀ s' i r resp l,
       runs (data s') = Some h →
       heap s' !! h = Some l →
       pending s' !! i = Some r →
       on_success r = KPushRuns ∨ on_success r = KPushCompleted →
       result r < length (heap s') → result r ≠ h →
       heap (deliver i resp s') !! h = Some (l ++ resp)).
Proof.
  intros Hr h s1 pid.
  split_and!; [| | | | |intros s' i r resp l; apply deliver_appends].
  all: unfold issued, step; subst h s1; rewrite (getRuns_fresh s Hr).
  all: cbn [fst snd heap data pending trace set_runs runs].
  - by rewrite list_lookup_middle.
  - done.
  - by rewrite drop_app_length.
  - by rewrite drop_app_length.
  - intros k resp Hk.
    set (s1 := {| data := _; globalCache := _; heap := _; pending := _;
                  trace := _ |}).
    assert (∃ r, pending s1 !! (length (pending s) + k) = Some r
                 ∧ on_success r = KPushRuns
                 ∧ result r = length (heap s) + S k) as (r & Hi & Hs & Hres).
    { subst s1. cbn [pending]. rewrite lookup_app_r by lia.
      replace (length (pending s) + k - length (pending s)) with k by lia.
      destruct k as [|[|[|k]]]; [| | |lia];
        (eexists; split_and!; [done | done | simpl; lia]). }
    erewrite (deliver_appends s1 (length (heap s)) _ r resp []);
      [done | done | | exact Hi | by left | |].
    + subst s1. cbn [heap]. by rewrite list_lookup_middle.
    + subst s1. cbn [heap]. rewrite length_app. simpl. lia.
    + lia.
Qed.

Lemma getRuns_returns_before_responses_witness :
  let s := setProjectId (JStr "7") init in
  heap (getRuns s).2 !! (getRuns s).1 = Some []
  ∧ runs (data (getRuns s).2) = Some (getRuns s).1
  ∧ heap (deliver 0 [Item 1 "nightly"] (getRuns s).2) !! (getRuns s).1
    = Some [Item 1 "nightly"].
Proof.
  intros s.
  destruct (getRuns_returns_before_responses s) as (H1 & H2 & _ & _ & H5 & _).
  - reflexivity.
  - split; [exact H1 | split; [exact H2|]].
    apply (H5 0 [Item 1 "nightly"]). lia.
Defined.

(** C2 as stated fails: when [getRuns] returns, none of its four queries
    has completed, and the list the caller receives is empty although the
    queries return three runs. *)
Lemma getRuns_exposes_unfinished_list :
  let s := setProjectId (JStr "7") init in
  heap (getRuns s).2 !! (getRuns s).1 = Some []
  ∧ req <$> pending (getRuns s).2 =
      [RunAll "scheduled" (JStr "7"); RunAll "in_queue" (JStr "7");
       RunAll "started" (JStr "7"); JobAll (JStr "7")]
  ∧ merged_runs demo_server (JStr "7") =
      [Item 1 "nightly"; Item 2 "hourly"; Item 3 "backup"]
  ∧ heap (getRuns s).2 !! (getRuns s).1
      ≠ Some (merged_runs demo_server (JStr "7")).
Proof. by split_and!. Qed.

(** ** No failure path *)

Lemma fetches_puts (prefix : string) (xs : list item) :
  fetches (puts prefix xs) = [].
Proof. unfold fetches, puts. by induction xs. Qed.

Lemma fetches_queries (xs : list item) :
  fetches ((λ job, Fetch (RunQuery (id job) 1 "completed")) <$> xs)
  = (λ n, RunQuery n 1 "completed") <$> (id <$> xs).
Proof.
  unfold fetches. induction xs as [|x xs IH]; [done|]. simpl. by f_equal.
Qed.

Lemma push_each_trace (xs : list item) (s : state) :
  ∃ t, trace (push_each xs s) = trace s ++ t ∧ fetches t = [].
Proof.
  destruct (runs (data s)) as [h|] eqn:Hr.
  - rewrite (push_each_eq xs h) by done. exists []. by rewrite app_nil_r.
  - destruct xs as [|x xs]; simpl.
    + exists []. by rewrite app_nil_r.
    + unfold push. rewrite Hr. by exists [TypeError].
Qed.

Lemma issued_suffix (a : action) (s : state) (t : list event) :
  trace (step s a) = trace s ++ t → issued a s = fetches t.
Proof. intros Ht. unfold issued. by rewrite Ht, drop_app_length. Qed.

Ltac not_among :=
  let Hin := fresh "Hin" in
  intros Hin;
  repeat (apply elem_of_cons in Hin as [Hin | Hin]; [discriminate Hin|]);
  by apply elem_of_nil in Hin.

Ltac trace_suffix :=
  first
    [ by (exists []; rewrite app_nil_r; split; [done | apply NoDup_nil_2])
    | eexists; split;
      [ simpl; rewrite <- ?app_assoc; reflexivity
      | simpl; repeat (apply NoDup_cons; split; [not_among|]);
        apply NoDup_nil_2 ] ].

(** Every call issues each of its queries once. *)
Lemma call_trace (a : action) (s : state) :
  is_call a = true →
  ∃ t, trace (step s a) = trace s ++ t ∧ NoDup (fetches t).
Proof.
  destruct a as [p|p cb| |success| | |i resp|i]; try discriminate; intros _;
    cbn [step]; unfold setProjectId, initialize, getProject, getAllJobs,
      getAllJobTemplates, getRuns.
  - destruct (_ || _); trace_suffix.
  - destruct (_ || _); trace_suffix.
  - destruct (project (data s)); trace_suffix.
  - destruct (jobs (data s)); trace_suffix.
  - destruct (jobTemplates (data s)); trace_suffix.
  - destruct (runs (data s)); trace_suffix.
Qed.

(** A response makes its callback issue each follow-up query once, the
    records of the response having distinct ids. *)
Lemma respond_trace (i : nat) (resp : list item) (s : state) :
  NoDup (id <$> resp) →
  ∃ t, trace (deliver i resp s) = trace s ++ t ∧ NoDup (fetches t).
Proof.
  intros Hnd. unfold deliver.
  destruct (pending s !! i) as [r|]; [|trace_suffix].
  set (mid := store (result r) resp (take_pending i s)).
  assert (trace mid = trace s) as Ht by done.
  assert (NoDup (id <$> default [] (heap mid !! result r))) as Hxs.
  { simpl. destruct (decide (result r < length (heap s))).
    - by rewrite list_lookup_insert_eq.
    - rewrite list_insert_ge by lia.
      rewrite lookup_ge_None_2 by lia. constructor. }
  clearbody mid. rewrite <- Ht.
  destruct (on_success r); cbn [run_cont];
    rewrite ?put_each_eq, ?query_each_eq; try trace_suffix.
  - eexists. split; [simpl; rewrite <- ?app_assoc; reflexivity|].
    rewrite (fetches_app [_]), fetches_app, fetches_puts. simpl.
    apply NoDup_singleton.
  - eexists. split; [simpl; rewrite <- ?app_assoc; reflexivity|].
    rewrite (fetches_app [_]), fetches_app, fetches_puts. simpl.
    apply NoDup_singleton.
  - eexists. split; [simpl; rewrite <- ?app_assoc; reflexivity|].
    rewrite (fetches_app [_]), fetches_app, fetches_puts. simpl.
    constructor.
  - destruct (push_each_trace (default [] (heap mid !! result r)) mid)
      as (t & -> & Hf).
    exists t. split; [done|]. rewrite Hf. constructor.
  - eexists. split; [simpl; reflexivity|].
    rewrite fetches_queries. apply NoDup_fmap_2; [|done].
    by intros ?? [=].
  - destruct (push_each_trace (default [] (heap mid !! result r)) mid)
      as (t & -> & Hf).
    exists t. split; [done|]. rewrite Hf. constructor.
Qed.

Lemma delete_beyond {A} (l : list A) (i : nat) :
  length l ≤ i → delete i l = l.
Proof.
  revert i. induction l as [|x l IH]; intros [|i] Hi; simpl in *;
    [done | done | lia |].
  f_equal. apply IH. lia.
Qed.


(** * Further properties *)

(** ** dtformat: durations as numbers and as text *)

(** The properties of this part are stated for the library that is meant
    where none is named, [Moment.v2_1]. *)

Lemma quot_rem_sign (a b : Z) :
  (0 < b →
   a = b * Z.quot a b + Z.rem a b
   ∧ ((0 ≤ a ∧ 0 ≤ Z.quot a b ∧ 0 ≤ Z.rem a b < b)
      ∨ (a ≤ 0 ∧ Z.quot a b ≤ 0 ∧ - b < Z.rem a b ≤ 0)))%Z.
Proof. intros Hb. Z.quot_rem_to_equations. nia. Qed.

(** A digit and the rest of a number of the same sign. *)
Lemma mixed_radix_step (r q b : Z) :
  (0 < b →
   (0 ≤ q ∧ 0 ≤ r < b) ∨ (q ≤ 0 ∧ - b < r ≤ 0) →
   Z.quot (r + b * q) b = q ∧ Z.rem (r + b * q) b = r)%Z.
Proof.
  intros Hb Hs.
  destruct (quot_rem_sign (r + b * q) b Hb) as [He Hsgn].
  assert (Z.quot (r + b * q) b = q) as Hq' by nia.
  split; [done | nia].
Qed.

(** The seconds, minutes, hours and days of a duration are the digits of
    the number [getDurationInSec] makes of them. *)
Lemma duration_digits (ms : Z) :
  let d := Moment.bubble ms in
  let n := (Moment.seconds d + 60 * Moment.minutes d + 3600 * Moment.hours d
            + 86400 * Moment.days d)%Z in
  Moment.days d = Z.quot n 86400
  ∧ Moment.hours d = Z.rem (Z.quot n 3600) 24
  ∧ Moment.minutes d = Z.rem (Z.quot n 60) 60
  ∧ Moment.seconds d = Z.rem n 60.
Proof.
  unfold Moment.bubble; simpl.
  set (S := Z.quot ms 1000).
  destruct (quot_rem_sign S 60) as [E1 H1]; [lia|].
  set (s := Z.rem S 60) in *. set (M := Z.quot S 60) in *.
  destruct (quot_rem_sign M 60) as [E2 H2]; [lia|].
  set (m := Z.rem M 60) in *. set (H := Z.quot M 60) in *.
  destruct (quot_rem_sign H 24) as [E3 H3]; [lia|].
  set (h := Z.rem H 24) in *. set (D := Z.quot H 24) in *.
  destruct (quot_rem_sign D 30) as [E4 H4]; [lia|].
  set (d := Z.rem D 30) in *. set (Mo := Z.quot D 30) in *.
  destruct (mixed_radix_step h d 24) as [A1 A2]; [lia | lia |].
  destruct (mixed_radix_step m (h + 24 * d) 60) as [B1 B2]; [lia | lia |].
  destruct (mixed_radix_step s (m + 60 * (h + 24 * d)) 60) as [C1 C2];
    [lia | lia |].
  replace (s + 60 * m + 3600 * h + 86400 * d)%Z
    with (s + 60 * (m + 60 * (h + 24 * d)))%Z by lia.
  replace 86400%Z with (60 * 60 * 24)%Z by lia.
  replace 3600%Z with (60 * 60)%Z by lia.
  rewrite <- !Z.quot_quot by lia.
  rewrite C1, C2, B1, B2, A1, A2. done.
Qed.

(** The number [getDurationInSec] makes of a bubbled duration is its
    whole seconds, less the whole periods of 30 days. *)
Lemma duration_out_rem (ms : Z) :
  let d := Moment.bubble ms in
  (Moment.seconds d + 60 * Moment.minutes d + 3600 * Moment.hours d
   + 86400 * Moment.days d)%Z
  = Z.rem (Moment.whole_seconds ms) 2592000.
Proof.
  unfold Moment.bubble, Moment.whole_seconds; simpl.
  set (S := Z.quot ms 1000).
  destruct (quot_rem_sign S 60) as [E1 H1]; [lia|].
  set (s := Z.rem S 60) in *. set (M := Z.quot S 60) in *.
  destruct (quot_rem_sign M 60) as [E2 H2]; [lia|].
  set (m := Z.rem M 60) in *. set (H := Z.quot M 60) in *.
  destruct (quot_rem_sign H 24) as [E3 H3]; [lia|].
  set (h := Z.rem H 24) in *. set (D := Z.quot H 24) in *.
  destruct (quot_rem_sign D 30) as [E4 H4]; [lia|].
  set (d := Z.rem D 30) in *. set (Mo := Z.quot D 30) in *.
  destruct (mixed_radix_step (s + 60 * m + 3600 * h + 86400 * d) Mo 2592000)
    as [_ R]; [lia | lia |].
  rewrite <- R. f_equal. lia.
Qed.

Lemma getDurationInSec_value (moment : jsval → Z) (a b : jsval) :
  a ≠ JNull → b ≠ JNull →
  getDurationInSec moment a b =
    Some (Z.rem (Moment.whole_seconds (moment b - moment a)) 2592000).
Proof.
  intros Ha Hb. unfold getDurationInSec.
  rewrite (not_null_true a Ha), (not_null_true b Hb). cbn [andb]. cbv zeta.
  cbn [Moment.duration Moment.diff Moment.v2_1]. unfold Moment.elapsed.
  rewrite <- duration_out_rem. cbv zeta. f_equal. lia.
Qed.

Lemma formatDuration_value (moment : jsval → Z) (a b : jsval) :
  a ≠ JNull → b ≠ JNull →
  formatDuration moment a b =
    Some (duration_text
            (Z.rem (Moment.whole_seconds (moment b - moment a)) 2592000)).
Proof.
  intros Ha Hb. unfold formatDuration, duration_text.
  rewrite (not_null_true a Ha), (not_null_true b Hb). cbn [andb]. cbv zeta.
  cbn [Moment.duration Moment.diff Moment.v2_1]. unfold Moment.elapsed.
  rewrite <- duration_out_rem. cbv zeta.
  destruct (duration_digits (moment b - moment a)) as (<- & <- & <- & <-).
  done.
Qed.



(** X3: on non-null timestamps [formatDuration] shows the very number
    that [getDurationInSec] returns, split by truncating division in
    days, hours, minutes and seconds. *)
Theorem formatDuration_shows_getDurationInSec (moment : jsval → Z)
    (startDts endDts : jsval) :
  startDts ≠ JNull → endDts ≠ JNull →
  ∃ n : Z,
    getDurationInSec moment startDts endDts = Some n
    ∧ formatDuration moment startDts endDts =
        Some (pretty (Z.quot n 86400) +:+ "d, "
              +:+ pretty (Z.rem (Z.quot n 3600) 24) +:+ "h, "
              +:+ pretty (Z.rem (Z.quot n 60) 60) +:+ "min, "
              +:+ pretty (Z.rem n 60) +:+ "sec ").
Proof.
  intros Hs He. eexists. split; [by apply getDurationInSec_value|].
  by apply formatDuration_value.
Qed.

Lemma formatDuration_shows_getDurationInSec_witness :
  let moment := λ v : jsval,
    match v with JStr "end" => 93784005%Z | _ => 0%Z end in
  formatDuration moment (JStr "start") (JStr "end")
  = Some "1d, 2h, 3min, 4sec ".
Proof.
  intros moment.
  destruct (formatDuration_shows_getDurationInSec moment (JStr "start")
              (JStr "end")) as (n & Hn & Hf); [done | done |].
  assert (n = 93784%Z) as -> by (vm_compute in Hn; congruence).
  exact Hf.
Defined.

Lemma numeral_app (s t : string) :
  numeral s = true → numeral t = true → numeral (s +:+ t) = true.
Proof.
  induction s as [|c s IH]; simpl; [done|].
  intros [Hc Hs]%andb_true_iff Ht. by rewrite Hc, IH.
Qed.

Lemma pretty_N_go_numeral (x : N) (s : string) :
  numeral s = true → numeral (pretty_N_go x s) = true.
Proof.
  revert s. induction (N.lt_wf_0 x) as [x _ IH]; intros s Hs.
  assert (x = 0 ∨ 0 < x)%N as [-> | Hx] by lia.
  - by rewrite pretty_N_go_0.
  - rewrite pretty_N_go_step by done. apply IH.
    + by apply N.div_lt.
    + simpl. rewrite Hs, andb_true_r.
      unfold pretty_N_char. by repeat case_match.
Qed.

(** A number is written with digits and a sign only. *)
Lemma pretty_Z_numeral (z : Z) : numeral (pretty z) = true.
Proof.
  assert (∀ n : N, numeral (pretty n) = true) as HN.
  { intros n. unfold pretty, pretty_N. case_decide; [done|].
    by apply pretty_N_go_numeral. }
  destruct z as [|p|p]; [done | apply HN |].
  unfold pretty, pretty_Z. simpl. apply HN.
Qed.

(** A numeral ends at the first character that is not of a numeral. *)
Lemma numeral_sep_inj (c : Ascii.ascii) (s1 s2 r1 r2 : string) :
  numeral_char c = false →
  numeral s1 = true → numeral s2 = true →
  s1 +:+ String c r1 = s2 +:+ String c r2 → s1 = s2 ∧ r1 = r2.
Proof.
  intros Hc. revert s2.
  induction s1 as [|a s1 IH]; intros [|b s2]; simpl; intros H1 H2 Heq.
  - by injection Heq.
  - injection Heq as -> _. apply andb_true_iff in H2 as [H2 _]. congruence.
  - injection Heq as <- _. apply andb_true_iff in H1 as [H1 _]. congruence.
  - injection Heq as -> Heq.
    apply andb_true_iff in H1 as [_ H1]. apply andb_true_iff in H2 as [_ H2].
    destruct (IH s2 H1 H2 Heq) as [-> ->]. done.
Qed.

(** The text of a duration can be read back: it determines the four
    numbers it shows. *)
Lemma duration_text_inj (n k : Z) :
  (- 2592000 < n < 2592000)%Z → (- 2592000 < k < 2592000)%Z →
  duration_text n = duration_text k → n = k.
Proof.
  intros Hn Hk. unfold duration_text. intros Heq.
  cbn [String.append] in Heq.
  apply numeral_sep_inj in Heq as [Hd Heq];
    [|done|apply pretty_Z_numeral..].
  repeat (injection Heq as Heq).
  apply numeral_sep_inj in Heq as [Hh Heq];
    [|done|apply pretty_Z_numeral..].
  repeat (injection Heq as Heq).
  apply numeral_sep_inj in Heq as [Hm Heq];
    [|done|apply pretty_Z_numeral..].
  repeat (injection Heq as Heq).
  apply numeral_sep_inj in Heq as [Hsec _];
    [|done|apply pretty_Z_numeral..].
  apply (inj pretty) in Hd, Hh, Hm, Hsec.
  pose proof (Z.quot_rem' n 60) as E1. pose proof (Z.quot_rem' k 60) as E2.
  pose proof (Z.quot_rem' (Z.quot n 60) 60) as E3.
  pose proof (Z.quot_rem' (Z.quot k 60) 60) as E4.
  pose proof (Z.quot_rem' (Z.quot n 3600) 24) as E5.
  pose proof (Z.quot_rem' (Z.quot k 3600) 24) as E6.
  replace 3600%Z with (60 * 60)%Z in * by lia.
  replace 86400%Z with (60 * 60 * 24)%Z in Hd by lia.
  rewrite <- !Z.quot_quot in * by lia.
  lia.
Qed.

(** X4: the text of [formatDuration] and the number of [getDurationInSec]
    determine each other: on non-null timestamps two durations are shown
    alike exactly when they count the same seconds. *)
Theorem formatDuration_reads_back (moment : jsval → Z) (a b c d : jsval) :
  a ≠ JNull → b ≠ JNull → c ≠ JNull → d ≠ JNull →
  formatDuration moment a b = formatDuration moment c d
  ↔ getDurationInSec moment a b = getDurationInSec moment c d.
Proof.
  intros Ha Hb Hc Hd.
  rewrite !formatDuration_value, !getDurationInSec_value by done.
  split.
  - intros [= Heq]. f_equal. apply duration_text_inj; [| |done].
    + destruct (quot_rem_sign
                  (Moment.whole_seconds (moment b - moment a)) 2592000)
        as [_ H]; lia.
    + destruct (quot_rem_sign
                  (Moment.whole_seconds (moment d - moment c)) 2592000)
        as [_ H]; lia.
  - by intros [= ->].
Qed.

Lemma formatDuration_reads_back_witness :
  let moment := λ v : jsval,
    match v with
    | JStr "noon" => 43200000%Z
    | JStr "noon in 30 days" => 2635200000%Z
    | _ => 0%Z
    end in
  formatDuration moment (JStr "midnight") (JStr "noon")
  = formatDuration moment (JStr "midnight") (JStr "noon in 30 days").
Proof.
  intros moment.
  apply (formatDuration_reads_back moment (JStr "midnight") (JStr "noon")
           (JStr "midnight") (JStr "noon in 30 days")); try done.
Defined.

(** ** globalState: what responses and calls leave alone *)

(** X5: a response never changes [data]: whatever callback runs, and
    whether the request succeeds or fails, [data.project],
    [data.projectId], [data.jobs], [data.jobTemplates], [data.runs] and
    the other fields are as before; only the calls of the service assign
    them. *)
Theorem responses_leave_data (i : nat) (resp : list item) (s : state) :
  data (deliver i resp s) = data s ∧ data (fail i s) = data s.
Proof.
  unfold deliver, fail. destruct (pending s !! i) as [r|]; [|done].
  split; [by rewrite run_cont_data|].
  destruct (on_error r); [by rewrite run_cont_data | done].
Qed.

Lemma fail_data (i : nat) (s : state) : data (fail i s) = data s.
Proof.
  unfold fail. destruct (pending s !! i) as [r|]; [|done].
  destruct (on_error r); [by rewrite run_cont_data | done].
Qed.

Lemma step_view_fields (a : action) (s : state) :
  view_fields (data (step s a)) = view_fields (data s).
Proof.
  destruct a as [p|p cb| |success| | |i resp|i]; cbn [step].
  - unfold setProjectId. by destruct (_ || _).
  - unfold initialize. by destruct (_ || _).
  - unfold getProject. by destruct (project (data s)).
  - unfold getAllJobs. by destruct (jobs (data s)).
  - unfold getAllJobTemplates. by destruct (jobTemplates (data s)).
  - unfold getRuns. by destruct (runs (data s)).
  - by rewrite deliver_data.
  - by rewrite fail_data.
Qed.

(** X6: no call and no callback of the service assigns [data.page],
    [data.jobTab], [data.jobFilter] or [data.wsConnected]: after any
    sequence of calls, responses and failures, a change of project
    included, the four fields are what they were. *)
Theorem view_fields_never_assigned (acts : list action) (s : state) :
  page (data (exec acts s)) = page (data s)
  ∧ jobTab (data (exec acts s)) = jobTab (data s)
  ∧ jobFilter (data (exec acts s)) = jobFilter (data s)
  ∧ wsConnected (data (exec acts s)) = wsConnected (data s).
Proof.
  assert (view_fields (data (exec acts s)) = view_fields (data s)) as H.
  { induction acts as [|a acts IH] using rev_ind; [done|].
    by rewrite exec_snoc, step_view_fields. }
  unfold view_fields in H. by simplify_eq.
Qed.

Lemma run_cont_cache (k : cont) (h : handle) (s : state) :
  is_cache_cont k = false → globalCache (run_cont k h s) = globalCache s.
Proof.
  destruct k; try discriminate; intros _; cbn [run_cont];
    rewrite ?query_each_eq; try done.
  - apply push_each_frame.
  - apply push_each_frame.
Qed.

(** X7: the cache is written by [setProjectId], by [initialize] and by
    the three callbacks of [initialize] only: the four getters leave it
    as it is, and so does the response to any request whose callback is
    not one of those three. *)
Theorem getters_leave_cache (s : state) :
  globalCache (getProject s).2 = globalCache s
  ∧ (∀ success, globalCache (getAllJobs success s).2 = globalCache s)
  ∧ globalCache (getAllJobTemplates s).2 = globalCache s
  ∧ globalCache (getRuns s).2 = globalCache s
  ∧ (∀ i resp r,
       pending s !! i = Some r → is_cache_cont (on_success r) = false →
       globalCache (deliver i resp s) = globalCache s).
Proof.
  split_and!.
  - unfold getProject. by destruct (project (data s)).
  - intros success. unfold getAllJobs. by destruct (jobs (data s)).
  - unfold getAllJobTemplates. by destruct (jobTemplates (data s)).
  - unfold getRuns. by destruct (runs (data s)).
  - intros i resp r Hi Hk. unfold deliver. rewrite Hi.
    by rewrite run_cont_cache.
Qed.

(** ** globalCache: the shape of its entries *)

Lemma cache_entry_ok_mono (n n' : nat) (key : string) (v : cache_val) :
  n ≤ n' → cache_entry_ok n key v → cache_entry_ok n' key v.
Proof. destruct v; simpl; [|done]. intros ? [? ?]. split; [lia|done]. Qed.

Lemma cache_ok_frame (s s' : state) :
  globalCache s' = globalCache s →
  length (heap s) ≤ length (heap s') →
  cache_ok s → cache_ok s'.
Proof.
  unfold cache_ok. intros -> Hle Hok k v Hk.
  eapply cache_entry_ok_mono; [exact Hle|]. by apply Hok.
Qed.

Lemma put_items_ok (n : nat) (prefix : string) (xs : list item)
    (m : gmap string cache_val) :
  prefix = "job." ∨ prefix = "jobTemplate." ∨ prefix = "worker." →
  map_Forall (cache_entry_ok n) m →
  map_Forall (cache_entry_ok n) (put_items prefix xs m).
Proof.
  intros Hp. unfold put_items. revert m.
  induction xs as [|x xs IH]; intros m Hm; simpl; [done|].
  apply IH, map_Forall_insert_2; [|done]. simpl.
  destruct Hp as [-> | [-> | ->]]; auto.
Qed.

Lemma run_cont_heap_le (k : cont) (h : handle) (s : state) :
  length (heap s) ≤ length (heap (run_cont k h s)).
Proof.
  destruct k; cbn [run_cont]; rewrite ?put_each_eq, ?query_each_eq;
    simpl; rewrite ?length_app; try lia.
  - destruct (push_each_frame (default [] (heap s !! h)) s)
      as (_ & _ & _ & ->). lia.
  - destruct (push_each_frame (default [] (heap s !! h)) s)
      as (_ & _ & _ & ->). lia.
Qed.

Lemma run_cont_cache_ok (k : cont) (h : handle) (s : state) :
  h < length (heap s) → cache_ok s → cache_ok (run_cont k h s).
Proof.
  intros Hh Hok.
  destruct (is_cache_cont k) eqn:Hk.
  - unfold cache_ok in *.
    destruct k; try discriminate; cbn [run_cont]; rewrite put_each_eq;
      simpl; rewrite ?length_app.
    all: apply put_items_ok; [auto|].
    all: apply map_Forall_insert_2; [simpl; split; [lia|auto]|].
    all: intros key v Hkey; eapply cache_entry_ok_mono; [|by apply Hok]; lia.
  - apply (cache_ok_frame s); [by apply run_cont_cache | | done].
    apply run_cont_heap_le.
Qed.

Lemma cache_ok_step (a : action) (s : state) :
  well_formed s → cache_ok s → cache_ok (step s a).
Proof.
  intros Hwf Hok. destruct a as [p|p cb| |success| | |i resp|i]; cbn [step].
  - unfold setProjectId. destruct (_ || _); [|done].
    unfold cache_ok. simpl. apply map_Forall_empty.
  - unfold initialize. destruct (_ || _); [|done].
    unfold cache_ok. simpl. apply map_Forall_empty.
  - unfold getProject. destruct (project (data s)); [done|].
    apply (cache_ok_frame s); [done | simpl; rewrite length_app; lia | done].
  - unfold getAllJobs. destruct (jobs (data s)); [done|].
    apply (cache_ok_frame s); [done | simpl; rewrite length_app; lia | done].
  - unfold getAllJobTemplates. destruct (jobTemplates (data s)); [done|].
    apply (cache_ok_frame s); [done | simpl; rewrite length_app; lia | done].
  - unfold getRuns. destruct (runs (data s)); [done|].
    apply (cache_ok_frame s); [done | simpl; rewrite !length_app; lia | done].
  - unfold deliver. destruct (pending s !! i) as [r|] eqn:Hi; [|done].
    destruct (Forall_lookup_1 _ _ _ _ Hwf Hi) as [Hlt _].
    apply run_cont_cache_ok; [simpl; by rewrite length_insert|].
    apply (cache_ok_frame s); [done | simpl; by rewrite length_insert | done].
  - by destruct (well_formed_fail i s Hwf) as [-> | [-> _]].
Qed.

Lemma reachable_cache_ok (s : state) : reachable s → cache_ok s.
Proof.
  intros [acts ->]. induction acts as [|a acts IH] using rev_ind.
  - apply map_Forall_empty.
  - rewrite exec_snoc. apply cache_ok_step; [|done].
    apply reachable_well_formed. by exists acts.
Qed.

Ltac key_absurd H :=
  cbn [String.append] in H;
  first [ discriminate H
        | injection H as H; by apply pretty_N_ne_all in H
        | injection H as H; symmetry in H; by apply pretty_N_ne_all in H ].

(** X8: in every state the service can reach, a lookup in the cache
    reads back what the key says: under ['job.all'], ['jobTemplate.all']
    or ['worker.all'] a list that exists in the heap, under
    ['job.' + n], ['jobTemplate.' + n] or ['worker.' + n] a record whose
    id is [n]; and the cache holds no entry under any other key. *)
Theorem cache_reads_back (s : state) :
  reachable s →
  (∀ key v, globalCache s !! key = Some v →
            cache_entry_ok (length (heap s)) key v)
  ∧ (∀ key v,
       key ∈ ["job.all"; "jobTemplate.all"; "worker.all"] →
       globalCache s !! key = Some v →
       ∃ h l, v = CRef h ∧ heap s !! h = Some l)
  ∧ (∀ prefix (n : N) v,
       prefix ∈ ["job."; "jobTemplate."; "worker."] →
       globalCache s !! (prefix +:+ pretty n) = Some v →
       ∃ x, v = CItem x ∧ id x = n).
Proof.
  intros Hs. pose proof (reachable_cache_ok s Hs) as Hok.
  split; [exact Hok|]. split.
  - intros key v Hkey Hv. specialize (Hok key v Hv).
    destruct v as [h|x]; simpl in Hok.
    + destruct Hok as [Hlt _]. apply lookup_lt_is_Some in Hlt as [l Hl].
      by exists h, l.
    + exfalso. revert Hok.
      apply list_elem_of_In in Hkey. simpl in Hkey.
      destruct Hkey as [<- | [<- | [<- | []]]];
        intros [H | [H | H]]; key_absurd H.
  - intros prefix n v Hp Hv. specialize (Hok _ v Hv).
    destruct v as [h|x]; simpl in Hok.
    + exfalso. destruct Hok as [_ Hok]. revert Hok.
      apply list_elem_of_In in Hp. simpl in Hp.
      destruct Hp as [<- | [<- | [<- | []]]];
        intros [H | [H | H]]; key_absurd H.
    + exists x. split; [done|].
      apply list_elem_of_In in Hp. simpl in Hp.
      destruct Hp as [<- | [<- | [<- | []]]];
        destruct Hok as [H | [H | H]];
        first [ by apply (inj (String.app _)), (inj pretty) in H
              | exfalso; key_absurd H ].
Qed.

Lemma cache_reads_back_witness :
  let s := exec [CallInitialize (JStr "7") "render";
                 Respond 0 [Item 1 "job"]] init in
  ∃ x, globalCache s !! "job.1" = Some (CItem x) ∧ id x = 1%N.
Proof.
  intros s.
  destruct (cache_reads_back s) as (_ & _ & H).
  - by exists [CallInitialize (JStr "7") "render"; Respond 0 [Item 1 "job"]].
  - destruct (H "job." 1%N (CItem (Item 1 "job"))) as (x & Hx & Hid).
    + apply list_elem_of_here.
    + vm_compute. reflexivity.
    + exists x. split; [|exact Hid]. rewrite <- Hx. vm_compute. reflexivity.
Defined.

(** ** globalState: edges of the asynchronous operations *)

(** X9: a response to a run query that arrives while [data.runs] is null
    (the project was changed after [getRuns]) adds no run anywhere: the
    callback ends in an uncaught TypeError on the first run it is to
    push, or passes unnoticed when the response is empty; the request is
    spent and [data.runs] stays null. *)
Theorem run_response_without_list (i : nat) (resp : list item) (s : state)
    (r : pending_req) :
  pending s !! i = Some r →
  is_push (on_success r) = true →
  runs (data s) = None →
  result r < length (heap s) →
  deliver i resp s =
    {| data := data s; globalCache := globalCache s;
       heap := <[result r := resp]> (heap s);
       pending := delete i (pending s);
       trace := trace s ++ match resp with [] => [] | _ => [TypeError] end |}.
Proof.
  intros Hi Hk Hr Hlt. unfold deliver. rewrite Hi.
  assert (run_cont (on_success r) (result r)
            (store (result r) resp (take_pending i s))
          = push_each resp (store (result r) resp (take_pending i s))) as ->.
  { destruct (on_success r); try discriminate;
      cbn [run_cont heap store take_pending];
      by rewrite list_lookup_insert_eq. }
  destruct resp as [|x resp]; simpl.
  - by rewrite app_nil_r.
  - unfold push. simpl. by rewrite Hr.
Qed.

Lemma run_response_without_list_witness :
  let s := exec [CallSetProjectId (JStr "1"); CallGetRuns;
                 CallSetProjectId (JStr "7")] init in
  trace (deliver 0 [Item 9 "weekly"] s) = trace s ++ [TypeError]
  ∧ runs (data (deliver 0 [Item 9 "weekly"] s)) = None.
Proof.
  intros s.
  rewrite (run_response_without_list 0 [Item 9 "weekly"] s
             {| req := RunAll "scheduled" (JStr "1"); result := 1;
                on_success := KPushRuns; on_error := None |});
    [by split | reflexivity | reflexivity | reflexivity | simpl; lia].
Defined.

(** X10: [initialize] called again for the project that is being loaded
    calls back at once: the second callback runs while the cache is still
    empty and the jobs request of the first call is outstanding; nothing
    is fetched a second time. *)
Theorem initialize_again_calls_back_early (p : jsval) (cb1 cb2 : callback)
    (s : state) :
  projectId (data s) = JNull ∨ projectId (data s) ≠ p →
  truthy p = true →
  let s0 := initialize p cb1 s in
  initialize p cb2 s0 = invoke cb2 s0
  ∧ globalCache (initialize p cb2 s0) = ∅
  ∧ trace (initialize p cb2 s0) =
      trace s ++ [RemoveAll; Fetch (JobAll p); Invoke cb2]
  ∧ on_success <$> pending (initialize p cb2 s0) =
      (on_success <$> pending s) ++ [KCacheJobs cb1].
Proof.
  intros Hch Ht s0. apply guard_on_change in Hch.
  assert (s0 = (fetch (JobAll p) (KCacheJobs cb1) None
                  (set_runs None (set_jobTemplates None (set_jobs None
                     (set_project None
                        (cache_removeAll (set_projectId p s))))))).2) as Hs0.
  { subst s0. unfold initialize. by rewrite Hch. }
  assert (projectId (data s0) = p) as Hp by by rewrite Hs0.
  assert (initialize p cb2 s0 = invoke cb2 s0) as Hagain.
  { unfold initialize at 1. by rewrite Hp, (guard_on_same p Ht). }
  rewrite Hagain. clear Hagain Hp. clearbody s0. subst s0.
  unfold invoke, fetch, cache_removeAll.
  cbn [snd globalCache trace pending set_runs set_jobTemplates set_jobs
       set_project set_projectId].
  rewrite fmap_app, <- !app_assoc. done.
Qed.

Lemma initialize_again_calls_back_early_witness :
  trace (initialize (JStr "7") "second" (initialize (JStr "7") "first" init))
  = [RemoveAll; Fetch (JobAll (JStr "7")); Invoke "second"].
Proof.
  destruct (initialize_again_calls_back_early (JStr "7") "first" "second"
              init) as (_ & _ & H & _); [by left | done | exact H].
Defined.

(** X11: the chain of [initialize] reads the project id when a response
    arrives, and nothing cancels it: when the project is changed to [q]
    while the jobs of [p] are being fetched, the jobs of [p] are cached
    all the same, in the cache emptied for [q], and the chain goes on
    with the templates of [q], the callback of the abandoned call still
    to come. *)
Theorem initialize_chain_follows_current_project (p q : jsval)
    (cb : callback) (js : list item) (s : state) :
  projectId (data s) = JNull ∨ projectId (data s) ≠ p →
  p ≠ q →
  let s1 := setProjectId q (initialize p cb s) in
  let s2 := deliver (length (pending s)) js s1 in
  fetches (drop (length (trace s)) (trace s1)) = [JobAll p]
  ∧ projectId (data s2) = q
  ∧ globalCache s2 =
      put_items "job." js {["job.all" := CRef (length (heap s))]}
  ∧ issued (Respond (length (pending s)) js) s1 = [JobTemplateAll q]
  ∧ on_success <$> pending s2 =
      (on_success <$> pending s) ++ [KCacheTemplates cb].
Proof.
  intros Hch Hpq s1 s2. apply guard_on_change in Hch.
  pose proof (guard_on_change p q (or_intror Hpq)) as Hch'.
  set (r := {| req := JobAll p; result := length (heap s);
               on_success := KCacheJobs cb; on_error := None |}).
  assert (s1 = {| data := data s1; globalCache := ∅;
                  heap := heap s ++ [[]]; pending := pending s ++ [r];
                  trace := trace s ++ [RemoveAll; Fetch (JobAll p);
                                       RemoveAll] |}
          ∧ projectId (data s1) = q) as [Hs1 Hq].
  { subst s1. unfold initialize. rewrite Hch. unfold setProjectId.
    cbn [data fetch snd set_runs set_jobTemplates set_jobs set_project
         cache_removeAll set_projectId projectId].
    rewrite Hch'.
    cbv [set_runs set_jobTemplates set_jobs set_project cache_removeAll
         set_projectId data project projectId page jobs jobTab jobTemplates
         jobFilter runs wsConnected globalCache heap pending trace].
    by rewrite <- !app_assoc. }
  assert (pending s1 !! length (pending s) = Some r) as Hi.
  { rewrite Hs1. simpl. by rewrite list_lookup_middle. }
  assert (result r < length (heap s1)) as Hlt.
  { rewrite Hs1. simpl. rewrite length_app. simpl. lia. }
  assert (s2 = deliver (length (pending s)) js s1) as Hs2 by done.
  rewrite (deliver_jobs cb _ js s1 r Hi eq_refl Hlt) in Hs2.
  split_and!.
  - rewrite Hs1. simpl. by rewrite drop_app_length.
  - by rewrite Hs2.
  - rewrite Hs2, Hs1. simpl. by rewrite insert_empty.
  - unfold issued. cbn [step].
    change (deliver (length (pending s)) js s1) with s2.
    rewrite Hs2. cbn [trace]. rewrite drop_app_length.
    rewrite app_comm_cons, fetches_app.
    change (fetches (Put ?k ?v :: ?l)) with (fetches l).
    by rewrite fetches_puts, Hq.
  - rewrite Hs2, Hs1. simpl.
    rewrite delete_middle, app_nil_r by done.
    by rewrite fmap_app.
Qed.

Lemma initialize_chain_follows_current_project_witness :
  let s1 := setProjectId (JStr "1") (initialize (JStr "7") "render" init) in
  globalCache (deliver 0 [Item 10 "backup"] s1) =
    put_items "job." [Item 10 "backup"] {["job.all" := CRef 0]}
  ∧ issued (Respond 0 [Item 10 "backup"]) s1 = [JobTemplateAll (JStr "1")].
Proof.
  intros s1.
  destruct (initialize_chain_follows_current_project (JStr "7") (JStr "1")
              "render" [Item 10 "backup"] init)
    as (_ & _ & Hc & Hi & _); [by left | done | by split].
Defined.

Lemma responses_data (acts : list action) (s : state) :
  Forall (λ a, is_call a = false) acts → data (exec acts s) = data s.
Proof.
  revert s. induction acts as [|a acts IH]; intros s Hacts; [done|].
  apply Forall_cons in Hacts as [Ha Hacts].
  change (exec (a :: acts) s) with (exec acts (step s a)).
  rewrite IH by done.
  destruct a; try discriminate; [apply deliver_data | apply fail_data].
Qed.

(** X12: [initialize] loads the jobs and the templates into the cache
    only: [data.project], [data.jobs] and [data.jobTemplates] stay null
    whatever responses arrive, so after [initialize] the getters fetch
    the project, the jobs and the templates again. *)
Theorem initialize_does_not_memoize (p : jsval) (cb : callback)
    (acts : list action) (s : state) :
  projectId (data s) = JNull ∨ projectId (data s) ≠ p →
  Forall (λ a, is_call a = false) acts →
  let s' := exec acts (initialize p cb s) in
  project (data s') = None ∧ jobs (data s') = None
  ∧ jobTemplates (data s') = None
  ∧ issued CallGetProject s' = [ProjectGet p]
  ∧ (∀ success, issued (CallGetAllJobs success) s' = [JobAll p])
  ∧ issued CallGetAllJobTemplates s' = [JobTemplateAll p].
Proof.
  intros Hch Hacts s'. apply guard_on_change in Hch.
  assert (data s' = {| project := None; projectId := p;
                       page := page (data s); jobs := None;
                       jobTab := jobTab (data s); jobTemplates := None;
                       jobFilter := jobFilter (data s); runs := None;
                       wsConnected := wsConnected (data s) |}) as Hd.
  { subst s'. rewrite responses_data by done.
    unfold initialize. by rewrite Hch. }
  split_and!; try (by rewrite Hd).
  - apply (issued_suffix _ _ [Fetch (ProjectGet p)]).
    cbn [step]. unfold getProject. by rewrite Hd.
  - intros success. apply (issued_suffix _ _ [Fetch (JobAll p)]).
    cbn [step]. unfold getAllJobs. by rewrite Hd.
  - apply (issued_suffix _ _ [Fetch (JobTemplateAll p)]).
    cbn [step]. unfold getAllJobTemplates. by rewrite Hd.
Qed.

Lemma initialize_does_not_memoize_witness :
  let s' := exec [Respond 0 [Item 10 "backup"]; Respond 0 []; Respond 0 []]
                 (initialize (JStr "7") "render" init) in
  jobs (data s') = None
  ∧ issued (CallGetAllJobs None) s' = [JobAll (JStr "7")].
Proof.
  intros s'.
  destruct (initialize_does_not_memoize (JStr "7") "render"
              [Respond 0 [Item 10 "backup"]; Respond 0 []; Respond 0 []]
              init) as (_ & Hj & _ & _ & Hi & _).
  - by left.
  - by repeat constructor.
  - split; [exact Hj | exact (Hi None)].
Defined.

(** X13: the success callback of [getAllJobs] belongs to the call that
    fetches.  That call's callback runs once, when the response has
    filled the list; a call made later, before or after the response,
    gets the same list (still empty before the response) and its own
    callback is dropped: the call changes nothing, so nothing is left to
    run it. *)
Theorem getAllJobs_calls_back_the_fetching_call (f : callback)
    (g : option callback) (resp : list item) (s : state) :
  jobs (data s) = None →
  let h := length (heap s) in
  let s1 := (getAllJobs (Some f) s).2 in
  let s2 := deliver (length (pending s)) resp s1 in
  getAllJobs g s1 = (h, s1)
  ∧ heap s1 !! h = Some []
  ∧ s2 = {| data := data s1; globalCache := globalCache s;
            heap := heap s ++ [resp]; pending := pending s;
            trace := trace s ++ [Fetch (JobAll (projectId (data s)));
                                 Invoke f] |}
  ∧ getAllJobs g s2 = (h, s2).
Proof.
  intros Hj h s1 s2.
  assert (s1 = set_jobs (Some h)
                 (fetch (JobAll (projectId (data s))) (KUser f) None s).2)
    as Hs1.
  { subst s1. unfold getAllJobs. by rewrite Hj. }
  assert (s2 = {| data := data s1; globalCache := globalCache s;
                  heap := heap s ++ [resp]; pending := pending s;
                  trace := trace s ++ [Fetch (JobAll (projectId (data s)));
                                       Invoke f] |}) as Hs2.
  { subst s2.
    rewrite (deliver_newest s1 (pending s) (heap s) [] resp
               {| req := JobAll (projectId (data s)); result := h;
                  on_success := KUser f; on_error := None |});
      [|by rewrite ?Hs1..].
    rewrite Hs1. simpl. unfold invoke. simpl. by rewrite <- app_assoc. }
  split_and!.
  - unfold getAllJobs. by rewrite Hs1.
  - rewrite Hs1. simpl. by rewrite list_lookup_middle.
  - exact Hs2.
  - unfold getAllJobs. rewrite Hs2 at 1. cbn [data]. by rewrite Hs1.
Qed.

Lemma getAllJobs_calls_back_the_fetching_call_witness :
  let s1 := (getAllJobs (Some "first") init).2 in
  getAllJobs (Some "second") s1 = (0, s1)
  ∧ trace (deliver 0 [Item 10 "backup"] s1) =
      [Fetch (JobAll JNull); Invoke "first"].
Proof.
  intros s1.
  destruct (getAllJobs_calls_back_the_fetching_call "first" (Some "second")
              [Item 10 "backup"] init eq_refl) as (H1 & _ & H2 & _).
  split; [exact H1 | exact (f_equal trace H2)].
Defined.

Lemma setProjectId_unfold (p : jsval) (s : state) :
  setProjectId p s =
    if negb (truthy (projectId (data s)))
       || negb (loose_eq (projectId (data s)) p)
    then {| data := {| project := None; projectId := p;
                       page := page (data s); jobs := None;
                       jobTab := jobTab (data s); jobTemplates := None;
                       jobFilter := jobFilter (data s); runs := None;
                       wsConnected := wsConnected (data s) |};
            globalCache := ∅; heap := heap s; pending := pending s;
            trace := trace s ++ [RemoveAll] |}
    else s.
Proof. unfold setProjectId. by destruct (_ || _). Qed.

(** X14: [setProjectId] is idempotent on the data, the cache and the
    outstanding requests; with a truthy id (neither null, undefined nor
    the empty string) the second call does nothing at all, with a falsy
    one it empties the cache once more. *)
Theorem setProjectId_idempotent (p : jsval) (s : state) :
  let s1 := setProjectId p s in
  data (setProjectId p s1) = data s1
  ∧ globalCache (setProjectId p s1) = globalCache s1
  ∧ heap (setProjectId p s1) = heap s1
  ∧ pending (setProjectId p s1) = pending s1
  ∧ (truthy p = true → setProjectId p s1 = s1)
  ∧ (truthy p = false → trace (setProjectId p s1) = trace s1 ++ [RemoveAll]).
Proof.
  intros s1. rewrite (setProjectId_unfold p s1).
  subst s1. rewrite (setProjectId_unfold p s).
  destruct (negb (truthy (projectId (data s)))
            || negb (loose_eq (projectId (data s)) p)) eqn:Hg;
    cbn [data projectId globalCache heap pending trace].
  - destruct (negb (truthy p) || negb (loose_eq p p)) eqn:Hg2;
      cbn [data projectId globalCache heap pending trace].
    + split_and!; try done. intros Ht. by rewrite guard_on_same in Hg2.
    + split_and!; try done. intros Ht. by rewrite Ht in Hg2.
  - rewrite Hg. split_and!; try done.
    intros Ht. apply orb_false_elim in Hg as [Hg1 Hg2].
    destruct p as [| |b]; destruct (projectId (data s)) as [| |a];
      try discriminate.
    simpl in *. destruct a; [discriminate|].
    apply negb_false_iff, bool_decide_eq_true in Hg2. simplify_eq.
Qed.

(** ** globalState: the number of queries of [getRuns] *)

Lemma completed_queries_none_owed (srv : request → list item) (h0 : handle)
    (xs : list item) :
  completed_queries h0 xs ≫= queries_owed srv = [].
Proof.
  revert h0. induction xs as [|x xs IH]; intros h0; [done|].
  cbn [completed_queries]. by rewrite bind_cons, IH.
Qed.

(** One response: the queries it makes the service issue are those its
    request owed. *)
Lemma serve_queries (srv : request → list item) (i : nat) (s : state) :
  run_queries_only s →
  run_queries_only (serve srv i s)
  ∧ ∃ t, trace (serve srv i s) = trace s ++ t
         ∧ fetches t ++ (pending (serve srv i s) ≫= queries_owed srv)
           ≡ₚ pending s ≫= queries_owed srv.
Proof.
  intros Hq. unfold serve.
  destruct (pending s !! i) as [r|] eqn:Hi;
    [|split; [done | exists []; by rewrite app_nil_r]].
  destruct (Forall_lookup_1 _ _ _ _ Hq Hi) as [Hk Hlt].
  assert (pending s ≫= queries_owed srv
          ≡ₚ queries_owed srv r
             ++ (delete i (pending s) ≫= queries_owed srv)) as Hperm.
  { rewrite (delete_Permutation _ _ _ Hi) at 1. by rewrite bind_cons. }
  assert (Forall (λ r, is_run_query (on_success r) = true
                       ∧ result r < length (heap s))
                 (delete i (pending s))) as Hrest
    by by apply Forall_delete.
  unfold deliver. rewrite Hi.
  set (mid := store (result r) (srv (req r)) (take_pending i s)).
  assert (default [] (heap mid !! result r) = srv (req r)) as Hxs
    by (simpl; by rewrite list_lookup_insert_eq).
  assert (pending mid = delete i (pending s)) as Hp by done.
  assert (trace mid = trace s) as Ht by done.
  assert (length (heap mid) = length (heap s)) as Hl
    by (simpl; apply length_insert).
  clearbody mid.
  assert (is_push (on_success r) = true →
          run_queries_only (push_each (srv (req r)) mid)
          ∧ ∃ t, trace (push_each (srv (req r)) mid) = trace s ++ t
                 ∧ fetches t
                   ++ (pending (push_each (srv (req r)) mid)
                       ≫= queries_owed srv)
                   ≡ₚ pending s ≫= queries_owed srv) as Hpush.
  { intros Hpk.
    destruct (push_each_frame (srv (req r)) mid) as (_ & _ & Hp' & Hl').
    destruct (push_each_trace (srv (req r)) mid) as (t & Ht' & Hf).
    split.
    - unfold run_queries_only. by rewrite Hp', Hl', Hp, Hl.
    - exists t. rewrite Ht', Ht, Hf, Hp', Hp. split; [done|].
      rewrite Hperm. unfold queries_owed at 2.
      by destruct (on_success r). }
  destruct (on_success r) eqn:Hs; try discriminate; cbn [run_cont];
    rewrite Hxs; [by apply Hpush | | by apply Hpush].
  rewrite query_each_eq. cbn [pending trace heap]. split.
  - unfold run_queries_only. cbn [pending heap].
    rewrite Hp, Hl, length_app, length_replicate. apply Forall_app. split.
    + eapply Forall_impl; [exact Hrest|]. simpl. intros ? [? ?].
      split; [done | lia].
    + eapply Forall_impl; [apply completed_queries_results|]. simpl.
      intros ? (? & _ & ->). split; [done | lia].
  - eexists. rewrite Ht. split; [reflexivity|].
    rewrite Hp, bind_app, completed_queries_none_owed, app_nil_r.
    rewrite Hperm. unfold queries_owed at 2. rewrite Hs.
    by rewrite fetches_queries, <- list_fmap_compose.
Qed.

Lemma schedule_queries (srv : request → list item) (sched : list nat)
    (s : state) :
  run_queries_only s →
  ∃ t, trace (run_schedule srv sched s) = trace s ++ t
       ∧ fetches t ++ (pending (run_schedule srv sched s) ≫= queries_owed srv)
         ≡ₚ pending s ≫= queries_owed srv.
Proof.
  unfold run_schedule. revert s.
  induction sched as [|i sched IH]; intros s Hq.
  - exists []. by rewrite app_nil_r.
  - destruct (serve_queries srv i s Hq) as (Hq' & t & Ht & Hperm).
    destruct (IH _ Hq') as (u & Hu & Hperm').
    exists (t ++ u). simpl. rewrite Hu, Ht, <- app_assoc. split; [done|].
    by rewrite fetches_app, <- app_assoc, Hperm'.
Qed.

(** X15: one [getRuns], answered to the end in whatever order, costs four
    queries and one more for every job of the project: the three state
    queries, the job query, and a completed-run query per job the server
    reports, each issued once. *)
Theorem getRuns_queries_once_per_job (srv : request → list item)
    (sched : list nat) (s : state) :
  runs (data s) = None →
  pending s = [] →
  let pid := projectId (data s) in
  let s' := run_schedule srv sched (getRuns s).2 in
  pending s' = [] →
  fetches (drop (length (trace s)) (trace s'))
  ≡ₚ [RunAll "scheduled" pid; RunAll "in_queue" pid; RunAll "started" pid;
      JobAll pid]
     ++ ((λ job, RunQuery (id job) 1 "completed") <$> srv (JobAll pid))
  ∧ length (fetches (drop (length (trace s)) (trace s')))
    = 4 + length (srv (JobAll pid)).
Proof.
  intros Hr Hp pid s' Hdone.
  set (s1 := (getRuns s).2) in *.
  assert (trace s1 = trace s ++ [Fetch (RunAll "scheduled" pid);
                                 Fetch (RunAll "in_queue" pid);
                                 Fetch (RunAll "started" pid);
                                 Fetch (JobAll pid)]
          ∧ pending s1 ≫= queries_owed srv
            = (λ job, RunQuery (id job) 1 "completed") <$> srv (JobAll pid)
          ∧ run_queries_only s1) as (Ht1 & Ho1 & Hq1).
  { subst s1. unfold getRuns. rewrite Hr. simpl.
    rewrite Hp, <- !app_assoc. simpl. split_and!.
    - done.
    - unfold queries_owed. simpl. by rewrite app_nil_r.
    - unfold run_queries_only. simpl. rewrite !length_app. simpl.
      repeat (constructor; [split; [done | simpl; lia]|]). constructor. }
  destruct (schedule_queries srv sched s1 Hq1) as (t & Ht & Hperm).
  fold s' in Ht, Hperm. rewrite Hdone, Ho1 in Hperm.
  cbn [mbind list_bind] in Hperm. rewrite app_nil_r in Hperm.
  assert (fetches (drop (length (trace s)) (trace s'))
          = [RunAll "scheduled" pid; RunAll "in_queue" pid;
             RunAll "started" pid; JobAll pid] ++ fetches t) as ->.
  { by rewrite Ht, Ht1, <- app_assoc, drop_app_length, fetches_app. }
  split.
  - by rewrite Hperm.
  - rewrite length_app, Hperm, length_fmap. done.
Qed.

Lemma getRuns_queries_once_per_job_witness :
  let s := setProjectId (JStr "7") init in
  length (fetches (trace (run_schedule demo_server [0; 0; 0; 0; 0]
                            (getRuns s).2)))
  = 5.
Proof.
  intros s.
  destruct (getRuns_queries_once_per_job demo_server [0; 0; 0; 0; 0] s)
    as [_ H]; [reflexivity | reflexivity | reflexivity | exact H].
Defined.

(** ** globalState: every callback is called once *)

Lemma invoked_app (t u : list event) :
  invoked (t ++ u) = invoked t ++ invoked u.
Proof. unfold invoked. apply omap_app. Qed.

Lemma invoked_puts (prefix : string) (xs : list item) :
  invoked (puts prefix xs) = [].
Proof. unfold invoked, puts. by induction xs. Qed.

Lemma invoked_queries (xs : list item) :
  invoked ((λ job, Fetch (RunQuery (id job) 1 "completed")) <$> xs) = [].
Proof. unfold invoked. by induction xs. Qed.

Lemma push_each_invoked (xs : list item) (s : state) :
  ∃ t, trace (push_each xs s) = trace s ++ t ∧ invoked t = [].
Proof.
  destruct (runs (data s)) as [h|] eqn:Hr.
  - rewrite (push_each_eq xs h) by done. exists []. by rewrite app_nil_r.
  - destruct xs as [|x xs]; simpl.
    + exists []. by rewrite app_nil_r.
    + unfold push. rewrite Hr. by exists [TypeError].
Qed.

Lemma completed_queries_awaited (h0 : handle) (xs : list item) :
  completed_queries h0 xs ≫= (λ r, cont_callback (on_success r)) = [].
Proof.
  revert h0. induction xs as [|x xs IH]; intros h0; [done|].
  cbn [completed_queries]. by rewrite bind_cons, IH.
Qed.

Lemma awaited_delete (i : nat) (r : pending_req) (s : state) :
  pending s !! i = Some r →
  awaited s ≡ₚ cont_callback (on_success r)
               ++ (delete i (pending s) ≫= (λ r, cont_callback (on_success r))).
Proof.
  intros Hi. unfold awaited.
  rewrite (delete_Permutation _ _ _ Hi) at 1. by rewrite bind_cons.
Qed.

(** A response calls the callback its request was to lead to, or hands
    it on to the next request of the chain. *)
Lemma callbacks_deliver (i : nat) (resp : list item) (s : state) :
  invoked (trace (deliver i resp s)) ++ awaited (deliver i resp s)
  ≡ₚ invoked (trace s) ++ awaited s.
Proof.
  unfold deliver. destruct (pending s !! i) as [r|] eqn:Hi; [|done].
  rewrite (awaited_delete i r s Hi).
  set (mid := store (result r) resp (take_pending i s)).
  assert (pending mid = delete i (pending s)) as Hp by done.
  assert (trace mid = trace s) as Ht by done.
  rewrite <- Hp, <- Ht. clearbody mid.
  set (xs := default [] (heap mid !! result r)).
  destruct (on_success r); cbn [run_cont cont_callback]; fold xs;
    unfold awaited.
  - done.
  - simpl. rewrite invoked_app. simpl. solve_Permutation.
  - rewrite put_each_eq. simpl.
    rewrite !invoked_app, bind_app. simpl. rewrite invoked_puts. simpl.
    rewrite !app_nil_r. solve_Permutation.
  - rewrite put_each_eq. simpl.
    rewrite !invoked_app, bind_app. simpl. rewrite invoked_puts. simpl.
    rewrite !app_nil_r. solve_Permutation.
  - rewrite put_each_eq. simpl.
    rewrite !invoked_app. simpl. rewrite invoked_puts. simpl.
    solve_Permutation.
  - destruct (push_each_frame xs mid) as (_ & _ & -> & _).
    destruct (push_each_invoked xs mid) as (t & -> & Hf).
    by rewrite invoked_app, Hf, app_nil_r.
  - rewrite query_each_eq. simpl.
    by rewrite invoked_app, invoked_queries, bind_app,
      completed_queries_awaited, !app_nil_r.
  - destruct (push_each_frame xs mid) as (_ & _ & -> & _).
    destruct (push_each_invoked xs mid) as (t & -> & Hf).
    by rewrite invoked_app, Hf, app_nil_r.
Qed.

Lemma callbacks_step (a : action) (s : state) :
  well_formed s →
  invoked (trace (step s a)) ++ awaited (step s a) ++ drops a s
  ≡ₚ invoked (trace s) ++ awaited s ++ registers a s.
Proof.
  intros Hwf. destruct a as [p|p cb| |success| | |i resp|i];
    cbn [step drops registers]; rewrite ?app_nil_r.
  - rewrite setProjectId_unfold. destruct (_ || _); [|done].
    unfold awaited. simpl. by rewrite invoked_app, app_nil_r.
  - unfold initialize. destruct (_ || _).
    + unfold awaited. simpl. rewrite !invoked_app, bind_app. simpl.
      by rewrite !app_nil_r.
    + unfold awaited. simpl. rewrite invoked_app. simpl. solve_Permutation.
  - unfold getProject. destruct (project (data s)); [done|].
    unfold awaited. simpl. rewrite invoked_app, bind_app. simpl.
    by rewrite !app_nil_r.
  - unfold getAllJobs. destruct (jobs (data s)).
    + destruct success; by rewrite app_nil_r.
    + unfold awaited. destruct success as [f|]; simpl;
        rewrite invoked_app, bind_app; simpl; by rewrite !app_nil_r.
  - unfold getAllJobTemplates. destruct (jobTemplates (data s)); [done|].
    unfold awaited. simpl. rewrite invoked_app, bind_app. simpl.
    by rewrite !app_nil_r.
  - unfold getRuns. destruct (runs (data s)); [done|].
    unfold awaited. simpl. rewrite !invoked_app, !bind_app. simpl.
    by rewrite !app_nil_r.
  - apply callbacks_deliver.
  - unfold fail. destruct (pending s !! i) as [r|] eqn:Hi;
      [|by rewrite !app_nil_r].
    destruct (Forall_lookup_1 _ _ _ _ Hwf Hi) as [_ ->].
    rewrite (awaited_delete i r s Hi). unfold awaited. simpl.
    solve_Permutation.
Qed.

Lemma callbacks_exec (acts : list action) (s : state) :
  well_formed s →
  invoked (trace (exec acts s)) ++ awaited (exec acts s)
    ++ along drops acts s
  ≡ₚ invoked (trace s) ++ awaited s ++ along registers acts s.
Proof.
  revert s. induction acts as [|a acts IH]; intros s Hwf; [done|].
  change (exec (a :: acts) s) with (exec acts (step s a)).
  cbn [along].
  pose proof (IH (step s a) (well_formed_step a s Hwf)) as IH'.
  pose proof (callbacks_step a s Hwf) as Hstep.
  transitivity (drops a s ++ (invoked (trace (exec acts (step s a)))
                              ++ awaited (exec acts (step s a))
                              ++ along drops acts (step s a)));
    [solve_Permutation|].
  rewrite IH'.
  transitivity ((invoked (trace (step s a)) ++ awaited (step s a)
                 ++ drops a s) ++ along registers acts (step s a));
    [solve_Permutation|].
  rewrite Hstep. by rewrite <- !app_assoc.
Qed.

(** X16: the service calls a callback once for every time it was handed
    one, and never twice.  At any moment of any run, the callbacks called
    so far, those that outstanding requests still lead to and those lost
    with a failed request are, counted with multiplicity, the callbacks
    handed over by [initialize] and by the calls of [getAllJobs] that
    fetched.  So when no request has failed and none is outstanding,
    the callbacks called are exactly those handed over. *)
Theorem callbacks_called_once (acts : list action) :
  let s := exec acts init in
  invoked (trace s) ++ awaited s ++ along drops acts init
  ≡ₚ along registers acts init
  ∧ (Forall (λ a, ∀ i, a ≠ Fail i) acts → pending s = [] →
     invoked (trace s) ≡ₚ along registers acts init).
Proof.
  intros s.
  assert (invoked (trace s) ++ awaited s ++ along drops acts init
          ≡ₚ along registers acts init) as Hperm.
  { subst s. rewrite callbacks_exec by constructor. done. }
  split; [done|]. intros Hnf Hdone.
  assert (∀ s0, along drops acts s0 = []) as Hnone.
  { clear Hperm Hdone s. induction acts as [|a acts IH]; intros s0; [done|].
    apply Forall_cons in Hnf as [Ha Hnf]. cbn [along].
    rewrite (IH Hnf). destruct a; try done. by destruct (Ha i). }
  rewrite <- Hperm, Hnone. unfold awaited. rewrite Hdone.
  cbn [mbind list_bind]. by rewrite !app_nil_r.
Qed.

Lemma callbacks_called_once_witness :
  invoked (trace (exec [CallInitialize (JStr "7") "render";
                        CallGetAllJobs (Some "list");
                        Respond 0 [Item 10 "backup"]; Respond 0 [];
                        Respond 0 []; Respond 0 []] init))
  ≡ₚ ["render"; "list"].
Proof.
  destruct (callbacks_called_once
              [CallInitialize (JStr "7") "render";
               CallGetAllJobs (Some "list");
               Respond 0 [Item 10 "backup"]; Respond 0 [];
               Respond 0 []; Respond 0 []]) as [_ H].
  apply H; [|reflexivity].
  repeat (constructor; [intros i; discriminate|]). constructor.
Defined.

(** ** globalCache: entries leave it only with the project *)

Lemma put_items_keeps (prefix key : string) (xs : list item)
    (m : gmap string cache_val) :
  is_Some (m !! key) → is_Some (put_items prefix xs m !! key).
Proof.
  unfold put_items. revert m.
  induction xs as [|x xs IH]; intros m Hm; [done|].
  simpl. apply IH. rewrite lookup_insert_is_Some'. by right.
Qed.

Lemma run_cont_keeps (k : cont) (h : handle) (s : state) (key : string) :
  is_Some (globalCache s !! key) →
  is_Some (globalCache (run_cont k h s) !! key).
Proof.
  intros Hs. destruct (is_cache_cont k) eqn:Hk;
    [|by rewrite run_cont_cache].
  destruct k; try discriminate; cbn [run_cont]; rewrite put_each_eq; simpl;
    apply put_items_keeps; rewrite lookup_insert_is_Some'; by right.
Qed.

(** X17: nothing is ever removed from the cache one key at a time.  A
    key that is in the cache is still there after any call and any
    response (its value possibly overwritten), unless the step is a
    [setProjectId] or an [initialize] that changes the project, which
    empties the cache. *)
Theorem cache_emptied_only_by_project_change (a : action) (s : state)
    (key : string) :
  is_Some (globalCache s !! key) →
  is_Some (globalCache (step s a) !! key)
  ∨ (globalCache (step s a) = ∅
     ∧ ∃ p, (a = CallSetProjectId p ∨ ∃ cb, a = CallInitialize p cb)
            ∧ negb (truthy (projectId (data s)))
              || negb (loose_eq (projectId (data s)) p) = true).
Proof.
  intros Hs. destruct a as [p|p cb| |success| | |i resp|i]; cbn [step].
  - rewrite setProjectId_unfold.
    destruct (_ || _) eqn:Hg; [right | by left].
    split; [done|]. exists p. split; [by left | done].
  - unfold initialize.
    destruct (_ || _) eqn:Hg; [right | by left].
    split; [done|]. exists p. split; [right; by exists cb | done].
  - left. unfold getProject. by destruct (project (data s)).
  - left. unfold getAllJobs. by destruct (jobs (data s)).
  - left. unfold getAllJobTemplates. by destruct (jobTemplates (data s)).
  - left. unfold getRuns. by destruct (runs (data s)).
  - left. unfold deliver. destruct (pending s !! i) as [r|]; [|done].
    by apply run_cont_keeps.
  - left. unfold fail. destruct (pending s !! i) as [r|]; [|done].
    destruct (on_error r); [by apply run_cont_keeps | done].
Qed.

Lemma cache_emptied_only_by_project_change_witness :
  let s := exec [CallInitialize (JStr "7") "render";
                 Respond 0 [Item 10 "backup"]] init in
  is_Some (globalCache (step s CallGetRuns) !! "job.10").
Proof.
  intros s.
  destruct (cache_emptied_only_by_project_change CallGetRuns s "job.10")
    as [H | (_ & p & [Ha | [cb Ha]] & _)];
    [|exact H | discriminate Ha | discriminate Ha].
  exists (CItem (Item 10 "backup")). vm_compute. reflexivity.
Defined.
